(** * Safe Data Tool: risk scoring and anonymisation helpers

    A shallow embedding of the three helper functions of [app.py]
    ([add_laplace_noise], [generalise_age], [calculate_risk]) together with
    the parts of pandas and numpy they call, and the properties the
    specification states about them.

    Conventions of the model.
    - A pandas [DataFrame] is an ordered list of named, typed columns plus
      the length of its index.  Columns carry the dtypes [read_csv] produces
      for numeric and text data ([int64], [float64], [object]) and the
      [category] dtype [pd.cut] produces.  Boolean and datetime columns are
      outside the model.
    - Python objects live in a store; a frame is passed around by its
      location, so that [df.copy()] and [df[column] = ...] can be told apart
      from the caller's object.
    - A binary64 number is modelled by the rational it denotes and an
      operation on binary64 numbers by the exact operation followed by
      [round64], rounding to nearest with ties to even.  [NaN] is a separate
      value.  The infinities are outside the model: a float column holds
      finite numbers and missing values (a CSV cell reading [inf] has no
      counterpart), the draws of the generator are finite, as numpy's are
      for every scale the script can pass, and no operation overflows.
    - numpy's process-wide generator is a component of the state.  The
      Mersenne Twister and the Laplace transform are behind the interface
      [Generator]. *)

From Stdlib Require Import ZArith QArith Qround Qabs Qpower String List Bool Lia Lqa.
From stdpp Require Import base option list gmap strings.

Local Open Scope string_scope.
Local Open Scope Z_scope.

(** ** Tables *)

(** A column with its dtype.  [None] is the missing value ([NaN]); the other
    values of a float column are the finite binary64 numbers. *)
Inductive Series :=
| Int64 (values : list Z)
| Float64 (values : list (option Q))
| Object (values : list (option string))
| Categorical (values : list (option string)).

Record DataFrame := mkDataFrame {
  index_len : nat;
  columns : list (string * Series)
}.

(** A scalar as the join sees it. *)
Inductive cell :=
| Num (q : Q)
| Str (s : string)
| NaN.

Definition series_len (s : Series) : nat :=
  match s with
  | Int64 vs => length vs
  | Float64 vs => length vs
  | Object vs => length vs
  | Categorical vs => length vs
  end.

Definition series_cells (s : Series) : list cell :=
  match s with
  | Int64 vs => map (fun z => Num (inject_Z z)) vs
  | Float64 vs => map (fun v => match v with Some q => Num q | None => NaN end) vs
  | Object vs => map (fun v => match v with Some t => Str t | None => NaN end) vs
  | Categorical vs => map (fun v => match v with Some t => Str t | None => NaN end) vs
  end.

(** [len(df)] *)
Definition len (df : DataFrame) : nat := index_len df.

(** [df.columns] as a list of names *)
Definition column_names (df : DataFrame) : list string := map fst (columns df).

(** [c in df.columns] *)
Definition has_column (c : string) (df : DataFrame) : bool :=
  bool_decide (c ∈ column_names df).

Fixpoint assoc_get (c : string) (cols : list (string * Series)) : option Series :=
  match cols with
  | [] => None
  | (n, s) :: rest => if String.eqb c n then Some s else assoc_get c rest
  end.

Fixpoint assoc_set (c : string) (s : Series) (cols : list (string * Series))
  : list (string * Series) :=
  match cols with
  | [] => [(c, s)]
  | (n, s0) :: rest =>
      if String.eqb c n then (n, s) :: rest else (n, s0) :: assoc_set c s rest
  end.

(** [df[column]], [None] standing for pandas' [KeyError]. *)
Definition getitem (df : DataFrame) (column : string) : option Series :=
  assoc_get column (columns df).

(** The frame after [df[column] = s]: an existing column is replaced where it
    stands, a new one is appended. *)
Definition setitem (df : DataFrame) (column : string) (s : Series) : DataFrame :=
  {| index_len := index_len df; columns := assoc_set column s (columns df) |}.

(** [pd.api.types.is_numeric_dtype] *)
Definition is_numeric_dtype (s : Series) : bool :=
  match s with
  | Int64 _ | Float64 _ => true
  | Object _ | Categorical _ => false
  end.

(** ** Numbers *)

(** [numpy.round]: to the nearest integer, a tie going to the even one. *)
Definition round_half_even (q : Q) : Z :=
  let f := Qfloor q in
  match Qcompare (q - inject_Z f) (1 # 2) with
  | Lt => f
  | Gt => f + 1
  | Eq => if Z.even f then f else f + 1
  end.

(** The cast of a float to [int]: the fraction is dropped. *)
Definition trunc (q : Q) : Z := Z.quot (Qnum q) (Zpos (Qden q)).

(** The cast lands in [int64]: a value out of its range comes out as the
    smallest [int64], which is what the conversion gives on x86-64. *)
Definition to_int64 (q : Q) : Z :=
  let z := trunc q in
  if (- 2 ^ 63 <=? z) && (z <? 2 ^ 63) then z else - 2 ^ 63.

(** For a positive [x], the exponent [e] with [2^e <= x < 2^(e+1)]. *)
Definition binade (x : Q) : Z :=
  let e := Z.log2 (Qnum x) - Z.log2 (Zpos (Qden x)) in
  if Qle_bool (2 ^ e) x then e else e - 1.

(** The exponent of the last place of the binary64 numbers around a positive
    [x]: 53 significant bits, and 2^-1074 below the normal range. *)
Definition ulp_exponent (x : Q) : Z := Z.max (binade x) (-1022) - 52.

Definition round64_positive (x : Q) : Q :=
  (inject_Z (round_half_even (x * 2 ^ (- ulp_exponent x))) * 2 ^ ulp_exponent x)%Q.

(** The binary64 number nearest to [x], a tie going to the even significand:
    the result of a binary64 operation whose exact result is [x]. *)
Definition round64 (x : Q) : Q :=
  match Qcompare x 0 with
  | Eq => 0%Q
  | Gt => Qred (round64_positive x)
  | Lt => Qred (- round64_positive (- x))
  end.

(** ** Exceptions *)

Definition loc := nat.

Inductive exn :=
| KeyError_quasi (missing_in_micro missing_in_true : list string)
    (* app.py line 37; the message interpolates both lists *)
| KeyError (column : string)
    (* pandas: a column looked up by a name the frame does not have *)
| ValueError_not_numeric (column : string)
    (* app.py line 17: Column '...' is not numeric. *)
| ValueError_seed
    (* numpy: Seed must be between 0 and 2**32 - 1 *)
| ValueError_scale
    (* numpy: scale < 0 *)
| ValueError_shape
    (* numpy: operands of different lengths *)
| IntCastingNaNError
    (* pandas: Cannot convert non-finite values (NA or inf) to integer *)
| IndexError
    (* pandas merge: the first join key of an empty key list *)
| ValueError_merge (key : string)
    (* pandas merge: You are trying to merge on ... and ... columns *)
| MergeError
    (* pandas merge, 2.0 on: Passing 'suffixes' which cause duplicate
       columns ... is not allowed. *)
| TypeError
    (* an order comparison or an addition between text and a number *)
| Unbound (l : loc).
    (* a location with no object; no Python program reaches it *)

(** ** The pseudo-random generator *)

(** [seeded s] is the state [np.random.seed(s)] installs; [laplace_next]
    draws one Laplace sample of location 0 and the given scale and steps the
    state. *)
Class Generator := {
  rng_state : Type;
  seeded : Z -> rng_state;
  laplace_next : Q -> rng_state -> Q * rng_state
}.

Fixpoint laplace_draws `{Generator} (scale : Q) (size : nat) (g : rng_state)
  : list Q * rng_state :=
  match size with
  | O => ([], g)
  | S k =>
      let '(x, g1) := laplace_next scale g in
      let '(xs, g2) := laplace_draws scale k g1 in
      (x :: xs, g2)
  end.

(** A small congruential generator, used to run the model on examples. *)
Definition lcg_step (g : Z) : Z := (g * 1103515245 + 12345) mod 2147483648.

#[export] Instance lcg : Generator := {|
  rng_state := Z;
  seeded := fun s => lcg_step s;
  laplace_next := fun scale g =>
    ((scale * (inject_Z ((g / 65536) mod 201 - 100) / 100))%Q, lcg_step g)
|}.

(** ** Column arithmetic *)

(** An integer column is converted to binary64 before the sum. *)
Fixpoint add_int_noise (vs : list Z) (noise : list Q) : list (option Q) :=
  match vs, noise with
  | v :: vs', n :: noise' =>
      Some (round64 (round64 (inject_Z v) + n)) :: add_int_noise vs' noise'
  | _, _ => []
  end.

Fixpoint add_float_noise (vs : list (option Q)) (noise : list Q) : list (option Q) :=
  match vs, noise with
  | v :: vs', n :: noise' =>
      match v with Some q => Some (round64 (q + n)) | None => None end
      :: add_float_noise vs' noise'
  | _, _ => []
  end.

(** [series + noise] for a float array [noise]. *)
Definition series_add (s : Series) (noise : list Q) : exn + Series :=
  if negb (Nat.eqb (series_len s) (length noise)) then inl ValueError_shape
  else match s with
       | Int64 vs => inr (Float64 (add_int_noise vs noise))
       | Float64 vs => inr (Float64 (add_float_noise vs noise))
       | Object _ | Categorical _ => inl TypeError
       end.

(** [series.round()] *)
Definition series_round (s : Series) : Series :=
  match s with
  | Float64 vs =>
      Float64 (map (fun v => match v with
                             | Some q => Some (inject_Z (round_half_even q))
                             | None => None
                             end) vs)
  | other => other
  end.

Fixpoint cast_all (vs : list (option Q)) : option (list Z) :=
  match vs with
  | [] => Some []
  | None :: _ => None
  | Some q :: rest =>
      match cast_all rest with
      | Some zs => Some (to_int64 q :: zs)
      | None => None
      end
  end.

(** [series.astype(int)] on a numeric column. *)
Definition astype_int (s : Series) : exn + Series :=
  match s with
  | Int64 vs => inr (Int64 vs)
  | Float64 vs =>
      match cast_all vs with
      | Some zs => inr (Int64 zs)
      | None => inl IntCastingNaNError
      end
  | Object _ | Categorical _ => inl TypeError
  end.

(** ** [pd.cut] *)

(** [a.searchsorted(x, side="right")] on a sorted array: the position of the
    first edge greater than [x]. *)
Fixpoint searchsorted_right (a : list Z) (x : Q) : nat :=
  match a with
  | [] => O
  | b :: rest =>
      if Qle_bool (inject_Z b) x then S (searchsorted_right rest x) else O
  end.

(** One value through [pd.cut(..., right=False)]: a missing value, a value
    below the first edge and a value at or above the last edge have no
    category. *)
Definition cut_value (bins : list Z) (labels : list string) (x : option Q)
  : option string :=
  match x with
  | None => None
  | Some q =>
      let ids := searchsorted_right bins q in
      if Nat.eqb ids (length bins) || Nat.eqb ids 0 then None
      else nth_error labels (ids - 1)
  end.

Definition has_text (vs : list (option string)) : bool :=
  existsb (fun v => match v with Some _ => true | None => false end) vs.

(** [pd.cut(series, bins=bins, labels=labels, right=False)].  A text value
    cannot be ordered against the integer edges. *)
Definition pd_cut (s : Series) (bins : list Z) (labels : list string)
  : exn + Series :=
  match s with
  | Int64 vs =>
      inr (Categorical
             (map (fun z => cut_value bins labels (Some (inject_Z z))) vs))
  | Float64 vs => inr (Categorical (map (cut_value bins labels) vs))
  | Object vs | Categorical vs =>
      if has_text vs then inl TypeError
      else inr (Categorical (map (fun _ => None) vs))
  end.

(** ** [DataFrame.merge] *)

(** [pandas.api.types.infer_dtype(values, skipna=False)] *)
Inductive inferred :=
| inferred_integer
| inferred_floating
| inferred_string
| inferred_mixed
| inferred_empty
| inferred_categorical.

Definition all_text (vs : list (option string)) : bool :=
  forallb (fun v => match v with Some _ => true | None => false end) vs.

Definition infer_dtype (s : Series) : inferred :=
  match s with
  | Int64 _ => inferred_integer
  | Float64 _ => inferred_floating
  | Object vs =>
      match vs with
      | [] => inferred_empty
      | _ => if all_text vs then inferred_string
             else if has_text vs then inferred_mixed
             else inferred_floating
      end
  | Categorical _ => inferred_categorical
  end.

Definition in_bool_types (i : inferred) : bool :=
  match i with
  | inferred_integer | inferred_empty => true
  | _ => false
  end.

Definition in_string_types (i : inferred) : bool :=
  match i with
  | inferred_string | inferred_mixed | inferred_empty => true
  | _ => false
  end.

(** The dtype check merge runs on one pair of key columns
    ([_maybe_coerce_merge_keys]); [false] is its [ValueError]. *)
Definition keys_coercible (lk rk : Series) : bool :=
  let nl := series_len lk in
  let nr := series_len rk in
  if (negb (Nat.eqb nl 0) && Nat.eqb nr 0) || (Nat.eqb nl 0 && negb (Nat.eqb nr 0))
  then true
  else
    match lk, rk with
    | Categorical _, _ | _, Categorical _ => true
    | Int64 _, Int64 _ | Float64 _, Float64 _ | Object _, Object _ => true
    | Int64 _, Float64 _ | Float64 _, Int64 _ => true
    | Object _, _ | _, Object _ =>
        let il := infer_dtype lk in
        let ir := infer_dtype rk in
        if in_bool_types il && in_bool_types ir then true
        else negb ((in_string_types il && negb (in_string_types ir))
                   || (in_string_types ir && negb (in_string_types il)))
    end.

(** Equality of two key values: numbers by value, text by characters, and a
    missing value equal to a missing value only. *)
Definition cell_eqb (a b : cell) : bool :=
  match a, b with
  | Num p, Num q => Qeq_bool p q
  | Str s, Str t => String.eqb s t
  | NaN, NaN => true
  | _, _ => false
  end.

(** The key columns of both frames, in the order of [on]. *)
Fixpoint merge_keys (left right : DataFrame) (on : list string)
  : exn + list (string * Series * Series) :=
  match on with
  | [] => inr []
  | name :: rest =>
      match getitem left name, getitem right name with
      | Some lk, Some rk =>
          match merge_keys left right rest with
          | inr ks => inr ((name, lk, rk) :: ks)
          | inl e => inl e
          end
      | _, _ => inl (KeyError name)
      end
  end.

Fixpoint coerce_merge_keys (keys : list (string * Series * Series)) : option exn :=
  match keys with
  | [] => None
  | (name, lk, rk) :: rest =>
      if keys_coercible lk rk then coerce_merge_keys rest
      else Some (ValueError_merge name)
  end.

(** The values of a key column as the join compares them with a column
    [other]: an integer key joined with a float key is cast to binary64
    first, every other key is compared as it is. *)
Definition key_cells (k other : Series) : list cell :=
  match k, other with
  | Int64 vs, Float64 _ => map (fun z => Num (round64 (inject_Z z))) vs
  | _, _ => series_cells k
  end.

Definition key_at (k other : Series) (i : nat) : cell :=
  nth i (key_cells k other) NaN.

(** Row [i] of the left frame and row [j] of the right one agree on every
    key. *)
Definition rows_match (keys : list (string * Series * Series)) (i j : nat) : bool :=
  forallb (fun '(_, lk, rk) => cell_eqb (key_at lk rk i) (key_at rk lk j)) keys.

(** The rows of the inner join, each named by the pair of source rows it was
    built from. *)
Definition join_rows (nl nr : nat) (keys : list (string * Series * Series))
  : list (nat * nat) :=
  flat_map (fun i => map (pair i) (List.filter (fun j => rows_match keys i j) (seq 0 nr)))
           (seq 0 nl).

(** [Index.duplicated]: which entries repeat an earlier one. *)
Fixpoint duplicated_after (seen l : list string) : list bool :=
  match l with
  | [] => []
  | x :: rest => bool_decide (x ∈ seen) :: duplicated_after (x :: seen) rest
  end.

Definition duplicated (l : list string) : list bool := duplicated_after [] l.

(** The labels of [names] once the ones in [to_rename] carry the suffix, and
    among them those the suffix made repeat an earlier label. *)
Definition suffix_duplicates (names to_rename : list string) (suffix : string)
  : list string :=
  let labels :=
    map (fun x => if bool_decide (x ∈ to_rename) then x ++ suffix else x) names in
  map fst (List.filter (fun p => fst (snd p) && negb (snd (snd p)))
             (combine labels (combine (duplicated labels) (duplicated names)))).

(** [_items_overlap_with_suffix] on the columns of the result: the key
    columns come from the left frame (from the right one when the left frame
    has no rows), the other columns that both frames have are renamed with
    ["_micro"] and ["_true"]; the list is that of the labels the renaming
    duplicates. *)
Definition items_overlap_with_suffix (left right : DataFrame) (on : list string)
  : list string :=
  let not_key := fun c => negb (bool_decide (c ∈ on)) in
  let lnames := if Nat.ltb 0 (len left) then column_names left
                else List.filter not_key (column_names left) in
  let rnames := if Nat.ltb 0 (len left) then List.filter not_key (column_names right)
                else column_names right in
  let to_rename := List.filter (fun c => bool_decide (c ∈ rnames)) lnames in
  suffix_duplicates lnames to_rename "_micro"
  ++ suffix_duplicates rnames to_rename "_true".

(** [left.merge(right, on=on, how="inner", suffixes=("_micro", "_true"))], as
    far as the number of its rows goes.  pandas resolves the key columns,
    checks their dtypes, and then builds the join from the key arrays, taking
    the row count from the first of them ([len(left_keys[0])]): with [on=[]]
    there is none and the call raises.  Rows are paired when all their keys
    are equal, null keys being matched with each other (the pandas
    documentation warns that this differs from SQL).  The columns of the
    result are then labelled, and pandas (2.0 on) refuses a suffix that makes
    two labels equal; the contents of the result are not represented. *)
Definition merge (left right : DataFrame) (on : list string)
  : exn + list (nat * nat) :=
  match merge_keys left right on with
  | inl e => inl e
  | inr keys =>
      match coerce_merge_keys keys with
      | Some e => inl e
      | None =>
          match keys with
          | [] => inl IndexError
          | _ =>
              match items_overlap_with_suffix left right on with
              | [] => inr (join_rows (len left) (len right) keys)
              | _ => inl MergeError
              end
          end
      end
  end.

(** ** The interpreter state and its monad *)

Section Program.
Context `{G : Generator}.

(** The objects of the process and numpy's global generator. *)
Record state := mkState {
  heap : gmap loc DataFrame;
  np_random : rng_state
}.

(** A computation may raise; what it did to the state before stays done. *)
Definition M (A : Type) : Type := state -> (exn + A) * state.

Definition ret {A} (a : A) : M A := fun st => (inr a, st).

Definition raise {A} (e : exn) : M A := fun st => (inl e, st).

Definition bind {A B} (m : M A) (k : A -> M B) : M B :=
  fun st =>
    match m st with
    | (inr a, st') => k a st'
    | (inl e, st') => (inl e, st')
    end.

(** [try: m except Exception: handler] *)
Definition try_except {A} (m : M A) (handler : M A) : M A :=
  fun st =>
    match m st with
    | (inr a, st') => (inr a, st')
    | (inl _, st') => handler st'
    end.

Definition lift {A} (r : exn + A) : M A :=
  match r with
  | inr a => ret a
  | inl e => raise e
  end.

Notation "x <- m ;; k" := (bind m (fun x => k))
  (at level 100, m at next level, right associativity).
Notation "m ;;; k" := (bind m (fun _ => k))
  (at level 100, right associativity).

(** The frame a name is bound to. *)
Definition deref (l : loc) : M DataFrame :=
  fun st =>
    match heap st !! l with
    | Some df => (inr df, st)
    | None => (inl (Unbound l), st)
    end.

(** [df.copy()]: a new object with the same contents. *)
Definition copy (l : loc) : M loc :=
  df <- deref l ;;
  fun st =>
    let l' := fresh (dom (heap st)) in
    (inr l', {| heap := <[l' := df]> (heap st); np_random := np_random st |}).

(** [df[column]] *)
Definition df_getitem (l : loc) (column : string) : M Series :=
  df <- deref l ;;
  match getitem df column with
  | Some s => ret s
  | None => raise (KeyError column)
  end.

(** [df[column] = s]: the object at [l] is changed in place. *)
Definition df_setitem (l : loc) (column : string) (s : Series) : M unit :=
  df <- deref l ;;
  fun st =>
    (inr tt, {| heap := <[l := setitem df column s]> (heap st);
                np_random := np_random st |}).

(** [np.random.seed(s)] *)
Definition np_random_seed (s : Z) : M unit :=
  if (s <? 0) || (4294967295 <? s) then raise ValueError_seed
  else fun st => (inr tt, {| heap := heap st; np_random := seeded s |}).

(** [np.random.laplace(loc=0, scale=scale, size=size)] *)
Definition np_random_laplace (scale : Q) (size : nat) : M (list Q) :=
  match Qcompare scale 0 with
  | Lt => raise ValueError_scale
  | _ =>
      fun st =>
        let '(xs, g) := laplace_draws scale size (np_random st) in
        (inr xs, {| heap := heap st; np_random := g |})
  end.

(** ** The helper functions of app.py *)

Definition add_laplace_noise (df : loc) (column : string) (scale : Q)
  (random_state : option Z) : M loc :=
  df <- copy df ;;
  match random_state with
  | Some s => np_random_seed s
  | None => ret tt
  end ;;;
  n <- (d <- deref df ;; ret (len d)) ;;
  noise <- np_random_laplace scale n ;;
  checked <- df_getitem df column ;;
  if negb (is_numeric_dtype checked) then raise (ValueError_not_numeric column)
  else
    col <- df_getitem df column ;;
    summed <- lift (series_add col noise) ;;
    casted <- lift (astype_int (series_round summed)) ;;
    df_setitem df column casted ;;;
    ret df.

Definition bins : list Z := [0; 20; 30; 40; 50; 60; 70; 120].
Definition labels : list string :=
  ["<20"; "20-29"; "30-39"; "40-49"; "50-59"; "60-69"; "70+"].

Definition generalise_age (df : loc) (column : string) : M loc :=
  df <- copy df ;;
  d <- deref df ;;
  if negb (has_column column d) then ret df
  else
    try_except
      (col <- df_getitem df column ;;
       cut <- lift (pd_cut col bins labels) ;;
       df_setitem df column cut)
      (ret tt) ;;;
    ret df.

Definition calculate_risk (microdata true_ids : loc) (quasi_columns : list string)
  : M (nat * Q) :=
  micro <- deref microdata ;;
  ids <- deref true_ids ;;
  let missing_in_micro :=
    List.filter (fun c => negb (has_column c micro)) quasi_columns in
  let missing_in_true :=
    List.filter (fun c => negb (has_column c ids)) quasi_columns in
  match missing_in_micro, missing_in_true with
  | [], [] =>
      merged <- lift (merge micro ids quasi_columns) ;;
      let match_count := length merged in
      let risk_percent :=
        if Nat.ltb 0 (len micro)
        then round64
               (round64 (inject_Z (Z.of_nat match_count)
                         / inject_Z (Z.of_nat (len micro))) * 100)
        else 0%Q in
      ret (match_count, risk_percent)
  | _, _ => raise (KeyError_quasi missing_in_micro missing_in_true)
  end.

End Program.

(** ** Notions the statements use *)

(** The quasi-identifiers a frame has no column for, in the order given. *)
Definition missing_in (d : DataFrame) (quasi_columns : list string) : list string :=
  List.filter (fun c => negb (has_column c d)) quasi_columns.

(** Python's class [KeyError]. *)
Definition is_KeyError (e : exn) : bool :=
  match e with
  | KeyError_quasi _ _ | KeyError _ => true
  | _ => false
  end.

(** Every selected column passes merge's dtype check. *)
Definition dtypes_coercible (micro ids : DataFrame) (quasi_columns : list string) : bool :=
  forallb (fun c => match getitem micro c, getitem ids c with
                    | Some lk, Some rk => keys_coercible lk rk
                    | _, _ => true
                    end) quasi_columns.

(** Lines 34 to 41 of app.py on the contents of the two frames. *)
Definition risk_outcome (micro ids : DataFrame) (quasi_columns : list string)
  : exn + nat * Q :=
  match missing_in micro quasi_columns, missing_in ids quasi_columns with
  | [], [] =>
      match merge micro ids quasi_columns with
      | inr merged =>
          inr (length merged,
               if Nat.ltb 0 (len micro)
               then round64
                      (round64 (inject_Z (Z.of_nat (length merged))
                                / inject_Z (Z.of_nat (len micro))) * 100)
               else 0%Q)
      | inl e => inl e
      end
  | mm, mt => inl (KeyError_quasi mm mt)
  end.

(** The risk in percent as the specification writes it. *)
Definition risk_percent_spec (match_count n : nat) : Q :=
  (100 * inject_Z (Z.of_nat match_count) / inject_Z (Z.of_nat n))%Q.

Definition is_missing (c : cell) : bool :=
  match c with
  | NaN => true
  | _ => false
  end.

(** The value of column [s] in row [i]. *)
Definition cell_at (s : Series) (i : nat) : cell := nth i (series_cells s) NaN.

(** The generator state after the optional [np.random.seed(random_state)];
    [None] when numpy refuses the seed. *)
Definition after_seed `{Generator} (random_state : option Z) (g : rng_state)
  : option rng_state :=
  match random_state with
  | None => Some g
  | Some s => if (s <? 0) || (4294967295 <? s) then None else Some (seeded s)
  end.

(** Lines 16 to 18 of app.py on the contents of the copy, for a given noise
    array. *)
Definition noised_frame (d : DataFrame) (column : string) (noise : list Q)
  : exn + DataFrame :=
  match getitem d column with
  | None => inl (KeyError column)
  | Some col =>
      if negb (is_numeric_dtype col) then inl (ValueError_not_numeric column)
      else
        match series_add col noise with
        | inl e => inl e
        | inr summed =>
            match astype_int (series_round summed) with
            | inl e => inl e
            | inr casted => inr (setitem d column casted)
            end
        end
  end.

(** Lines 23 to 30 of app.py on the contents of the copy. *)
Definition generalised_frame (d : DataFrame) (column : string) : DataFrame :=
  match getitem d column with
  | None => d
  | Some col =>
      match pd_cut col bins labels with
      | inl _ => d
      | inr cut => setitem d column cut
      end
  end.

(** What a call handed back: the exception, or the contents of the frame
    whose location it returned. *)
Definition output `{Generator} (r : exn + loc) (st : state) : exn + DataFrame :=
  match r with
  | inl e => inl e
  | inr l =>
      match heap st !! l with
      | Some d => inr d
      | None => inl (Unbound l)
      end
  end.

(** The numbers of a numeric column, [None] for a missing one. *)
Definition numeric_values (s : Series) : list (option Q) :=
  match s with
  | Int64 vs => map (fun z => Some (inject_Z z)) vs
  | Float64 vs => vs
  | Object _ | Categorical _ => []
  end.

(** The age bands as the specification lists them: lower bound included,
    upper bound excluded, nothing outside [0, 120). *)
Definition age_band (x : Q) : option string :=
  if Qle_bool 0 x && negb (Qle_bool 20 x) then Some "<20"
  else if Qle_bool 20 x && negb (Qle_bool 30 x) then Some "20-29"
  else if Qle_bool 30 x && negb (Qle_bool 40 x) then Some "30-39"
  else if Qle_bool 40 x && negb (Qle_bool 50 x) then Some "40-49"
  else if Qle_bool 50 x && negb (Qle_bool 60 x) then Some "50-59"
  else if Qle_bool 60 x && negb (Qle_bool 70 x) then Some "60-69"
  else if Qle_bool 70 x && negb (Qle_bool 120 x) then Some "70+"
  else None.

(** A call that returns a frame returns an object the caller did not have
    before. *)
Definition returns_new_object (h : gmap loc DataFrame) (r : exn + loc) : Prop :=
  match r with
  | inr l => h !! l = None
  | inl _ => True
  end.

(** The numbers of a numeric column as the floats they enter a sum with a
    float array as: an integer is converted to binary64. *)
Definition float_values (s : Series) : list (option Q) :=
  match s with
  | Int64 vs => map (fun z => Some (round64 (inject_Z z))) vs
  | Float64 vs => vs
  | Object _ | Categorical _ => []
  end.

(** Float plus noise in binary64, rounded to an integer and cast to [int64],
    row by row. *)
Fixpoint rounded_sums (vs : list (option Q)) (noise : list Q) : list Z :=
  match vs, noise with
  | Some v :: vs', n :: noise' =>
      to_int64 (inject_Z (round_half_even (round64 (v + n))))
      :: rounded_sums vs' noise'
  | _, _ => []
  end.

(** No value of the column is missing. *)
Definition complete (s : Series) : bool :=
  forallb (fun v => match v with Some _ => true | None => false end)
          (numeric_values s).

(** A call run from a state, read through [output]. *)
Definition result_of `{Generator} (call : state -> (exn + loc) * state) (st : state)
  : exn + DataFrame :=
  let '(r, st') := call st in output r st'.

(** ** Sample tables *)

Module Samples.

Definition people : DataFrame :=
  mkDataFrame 3
    [("age", Int64 [25; 41; 70]);
     ("gender", Object [Some "M"; Some "F"; Some "F"]);
     ("income", Float64 [Some (52000 # 1); Some (61000 # 1); Some (18500 # 1)])].

Definition registry : DataFrame :=
  mkDataFrame 2
    [("name", Object [Some "Asha"; Some "Ravi"]);
     ("age", Int64 [41; 25]);
     ("gender", Object [Some "F"; Some "M"])].

(** A header and no rows, as [read_csv] loads it. *)
Definition no_rows : DataFrame :=
  mkDataFrame 0 [("age", Object []); ("gender", Object [])].

(** A numeric column with a blank cell. *)
Definition with_blank : DataFrame :=
  mkDataFrame 2
    [("age", Float64 [Some (33 # 1); None]);
     ("income", Float64 [Some (1200 # 1); None])].

Definition blank_registry : DataFrame :=
  mkDataFrame 1 [("name", Object [Some "Mina"]); ("age", Float64 [None])].

(** Ages typed in as text. *)
Definition text_registry : DataFrame :=
  mkDataFrame 2
    [("name", Object [Some "Asha"; Some "Ravi"]);
     ("age", Object [Some "41"; Some "unknown"])].

(** Numeric columns and no rows. *)
Definition no_rows_numeric : DataFrame :=
  mkDataFrame 0 [("age", Int64 []); ("income", Float64 [])].

(** A microdata table with a column named like the one the join's suffix
    makes out of [income], and a reference table with an [income] of its
    own. *)
Definition suffixed : DataFrame :=
  mkDataFrame 1
    [("age", Int64 [41]);
     ("income", Float64 [Some (61000 # 1)]);
     ("income_micro", Float64 [Some (60000 # 1)])].

Definition payroll : DataFrame :=
  mkDataFrame 1 [("age", Int64 [41]); ("income", Float64 [Some (61000 # 1)])].

(** Integer identifiers past 2^53 and the float they are both nearest to. *)
Definition big_float : DataFrame :=
  mkDataFrame 1 [("id", Float64 [Some (9007199254740992 # 1)])].

Definition big_ints : DataFrame :=
  mkDataFrame 2 [("id", Int64 [9007199254740992; 9007199254740993])].

(** The state of a process holding the given frames at locations 0, 1, ... *)
Definition process (frames : list DataFrame) : state :=
  mkState (list_to_map (zip (seq 0 (length frames)) frames)) (seeded 0).

End Samples.

(** ** The script around the helpers *)

(** Line 78 builds [common_cols] from a Python set, which fixes the names and
    leaves their order open: any list without repetition of the names both
    frames have a column for. *)
Definition is_common_cols (micro ids : DataFrame) (common_cols : list string) : Prop :=
  List.NoDup common_cols
  /\ forall c, In c common_cols <-> has_column c micro = true /\ has_column c ids = true.

(** Lines 79 to 81: the preselected quasi-identifiers. *)
Definition default_quasi (common_cols : list string) : list string :=
  match List.filter (fun c => bool_decide (c ∈ common_cols))
                    ["age"; "gender"; "district"] with
  | [] => firstn 3 common_cols
  | preferred => preferred
  end.

(** Line 95: the columns offered for noise,
    [micro_df.select_dtypes(include=np.number).columns]. *)
Definition numeric_cols (micro_df : DataFrame) : list string :=
  map fst (List.filter (fun p => is_numeric_dtype (snd p)) (columns micro_df)).

(** Line 118: the quasi-identifiers of the score after enhancement. *)
Definition new_quasi (quasi_cols : list string) : list string :=
  List.filter (fun q => negb (String.eqb q "age")) quasi_cols.

(** Lines 106 to 108: noise on the chosen column, then the age bands when
    the frame has an age column. *)
Definition anonymise `{Generator} (micro_df : loc) (num_col : string)
  (noise_scale : Q) (random_seed : Z) : M loc :=
  bind (add_laplace_noise micro_df num_col noise_scale (Some random_seed))
       (fun anon_df =>
          bind (deref anon_df)
               (fun anon =>
                  if has_column "age" anon then generalise_age anon_df "age"
                  else ret anon_df)).

(** No two rows of the reference frame agree on all the listed columns, the
    values taken as the join with the microdata compares them. *)
Definition distinct_on (micro ids : DataFrame) (quasi_columns : list string) : Prop :=
  forall j j', (j < len ids)%nat -> (j' < len ids)%nat -> j <> j' ->
    exists c lk rk,
      In c quasi_columns /\ getitem micro c = Some lk /\ getitem ids c = Some rk
      /\ cell_eqb (key_at rk lk j) (key_at rk lk j') = false.

(** Every column has one value per row of the index, as in any frame pandas
    builds. *)
Definition well_formed (d : DataFrame) : Prop :=
  Forall (fun p => series_len (snd p) = index_len d) (columns d).

(** * Properties *)

(** ** Columns by name *)

Lemma assoc_get_None c cols :
  assoc_get c cols = None <-> c ∉ map fst cols.
Proof.
  induction cols as [|[n s] rest IH]; simpl.
  - split; [intros _; apply not_elem_of_nil | reflexivity].
  - destruct (String.eqb_spec c n) as [->|Hne].
    + split; [discriminate | intros H; destruct H; left].
    + rewrite IH, not_elem_of_cons. tauto.
Qed.

Lemma has_column_false c d : has_column c d = false <-> getitem d c = None.
Proof.
  unfold has_column, getitem, column_names.
  rewrite bool_decide_eq_false, assoc_get_None. reflexivity.
Qed.

Lemma has_column_true c d :
  has_column c d = true <-> exists s, getitem d c = Some s.
Proof.
  destruct (has_column c d) eqn:E.
  - split; [intros _ | reflexivity].
    destruct (getitem d c) as [s|] eqn:Eg; [eauto |].
    apply has_column_false in Eg. congruence.
  - apply has_column_false in E. rewrite E.
    split; [discriminate | intros [s Hs]; discriminate].
Qed.

Lemma assoc_get_set_eq c s cols : assoc_get c (assoc_set c s cols) = Some s.
Proof.
  induction cols as [|[n s0] rest IH]; simpl.
  - rewrite String.eqb_refl. reflexivity.
  - destruct (String.eqb_spec c n) as [->|Hne]; simpl.
    + rewrite String.eqb_refl. reflexivity.
    + destruct (String.eqb_spec c n); [contradiction | exact IH].
Qed.

Lemma assoc_get_set_ne c c' s cols :
  c' <> c -> assoc_get c' (assoc_set c s cols) = assoc_get c' cols.
Proof.
  intros Hne. induction cols as [|[n s0] rest IH]; simpl.
  - destruct (String.eqb_spec c' c); [contradiction | reflexivity].
  - destruct (String.eqb_spec c n) as [->|Hcn]; simpl.
    + destruct (String.eqb_spec c' n); [contradiction | reflexivity].
    + destruct (String.eqb_spec c' n); [reflexivity | exact IH].
Qed.

(** ** Rounding to binary64 *)

Section Binary64.
Local Open Scope Q_scope.

Ltac order_of H :=
  first [apply Qeq_alt in H | apply Qlt_alt in H | apply Qgt_alt in H].

Lemma floor_bounds (q : Q) : inject_Z (Qfloor q) <= q /\ q < inject_Z (Qfloor q) + 1.
Proof.
  split; [apply Qfloor_le |].
  pose proof (Qlt_floor q) as H. rewrite inject_Z_plus in H. exact H.
Qed.

Lemma round_half_even_bounds (q : Q) :
  (Qfloor q <= round_half_even q <= Qfloor q + 1)%Z.
Proof.
  unfold round_half_even.
  destruct (Qcompare (q - inject_Z (Qfloor q)) (1 # 2)); [| lia | lia].
  destruct (Z.even (Qfloor q)); lia.
Qed.

Lemma round_half_even_inject_Z (z : Z) : round_half_even (inject_Z z) = z.
Proof.
  unfold round_half_even. rewrite Qfloor_Z.
  replace (Qcompare (inject_Z z - inject_Z z) (1 # 2)) with Lt; [reflexivity |].
  symmetry. apply Qlt_alt. unfold Qminus. rewrite Qplus_opp_r. reflexivity.
Qed.

Lemma round_half_even_mono (x y : Q) :
  x <= y -> (round_half_even x <= round_half_even y)%Z.
Proof.
  intros Hxy.
  pose proof (Qfloor_resp_le x y Hxy) as Hf.
  destruct (Z.eq_dec (Qfloor x) (Qfloor y)) as [Heq | Hne].
  - unfold round_half_even. rewrite Heq.
    destruct (Qcompare (x - inject_Z (Qfloor y)) (1 # 2)) eqn:Ex;
      destruct (Qcompare (y - inject_Z (Qfloor y)) (1 # 2)) eqn:Ey;
      try (destruct (Z.even (Qfloor y))); try lia;
      order_of Ex; order_of Ey; exfalso; lra.
  - pose proof (round_half_even_bounds x). pose proof (round_half_even_bounds y). lia.
Qed.

Lemma two_power_pos (e : Z) : 0 < 2 ^ e.
Proof. apply Qpower_0_lt. reflexivity. Qed.

Lemma two_power_plus (a b : Z) : 2 ^ (a + b) == 2 ^ a * 2 ^ b.
Proof. apply Qpower_plus. discriminate. Qed.

Lemma two_power_le (a b : Z) : (a <= b)%Z -> 2 ^ a <= 2 ^ b.
Proof. intros H. apply Qpower_le_compat_l; [exact H | discriminate]. Qed.

Lemma two_power_inv (e : Z) : 2 ^ (- e) * 2 ^ e == 1.
Proof. rewrite <- two_power_plus. replace (- e + e)%Z with 0%Z by lia. reflexivity. Qed.

Lemma two_power_Z (k : Z) : (0 <= k)%Z -> inject_Z (2 ^ k) == 2 ^ k.
Proof. intros H. rewrite Zpower_Qpower by exact H. reflexivity. Qed.

Lemma binade_spec (x : Q) : 0 < x -> 2 ^ binade x <= x /\ x < 2 ^ (binade x + 1).
Proof.
  intros Hx. unfold binade.
  set (a := Qnum x). set (b := Zpos (Qden x)).
  assert (Ha : (0 < a)%Z) by (unfold Qlt in Hx; simpl in Hx; subst a; lia).
  assert (Hb : (0 < b)%Z) by (subst b; lia).
  set (la := Z.log2 a). set (lb := Z.log2 b).
  pose proof (Z.log2_spec a Ha) as [Ha1 Ha2]. fold la in Ha1, Ha2.
  pose proof (Z.log2_spec b Hb) as [Hb1 Hb2]. fold lb in Hb1, Hb2.
  pose proof (Z.log2_nonneg a) as Hla. fold la in Hla.
  pose proof (Z.log2_nonneg b) as Hlb. fold lb in Hlb.
  assert (Hxab : x * inject_Z b == inject_Z a).
  { unfold Qeq, Qmult, inject_Z. subst a b. simpl. destruct x as [n d]. simpl.
    rewrite Pos.mul_1_r. lia. }
  assert (Qa1 : 2 ^ la <= inject_Z a) by (rewrite <- two_power_Z by lia; rewrite <- Zle_Qle; exact Ha1).
  assert (Qa2 : inject_Z a < 2 ^ (la + 1))
    by (rewrite <- two_power_Z by lia; rewrite <- Zlt_Qlt; replace (la + 1)%Z with (Z.succ la) by lia; exact Ha2).
  assert (Qb1 : 2 ^ lb <= inject_Z b) by (rewrite <- two_power_Z by lia; rewrite <- Zle_Qle; exact Hb1).
  assert (Qb2 : inject_Z b < 2 ^ (lb + 1))
    by (rewrite <- two_power_Z by lia; rewrite <- Zlt_Qlt; replace (lb + 1)%Z with (Z.succ lb) by lia; exact Hb2).
  pose proof (two_power_pos lb) as Plb. pose proof (two_power_pos la) as Pla.
  assert (Hup : x < 2 ^ (la - lb + 1)).
  { assert (E : 2 ^ (la + 1) == 2 ^ (la - lb + 1) * 2 ^ lb)
      by (rewrite <- two_power_plus; replace (la - lb + 1 + lb)%Z with (la + 1)%Z by lia; reflexivity).
    pose proof (two_power_pos (la - lb + 1)) as P.
    assert (x * 2 ^ lb < 2 ^ (la - lb + 1) * 2 ^ lb) by nra.
    nra. }
  assert (Hlow : 2 ^ (la - lb - 1) <= x).
  { assert (E : 2 ^ la == 2 ^ (la - lb - 1) * 2 ^ (lb + 1))
      by (rewrite <- two_power_plus; replace (la - lb - 1 + (lb + 1))%Z with la by lia; reflexivity).
    pose proof (two_power_pos (la - lb - 1)) as P.
    pose proof (two_power_pos (lb + 1)) as P'.
    assert (2 ^ (la - lb - 1) * inject_Z b <= x * inject_Z b) by nra.
    assert (0 < inject_Z b) by (rewrite Zlt_Qlt in Hb; exact Hb).
    nra. }
  destruct (Qle_bool (2 ^ (la - lb)) x) eqn:E.
  - apply Qle_bool_iff in E. split; assumption.
  - assert (Hlt : x < 2 ^ (la - lb)).
    { apply Qnot_le_lt. intros H. apply Qle_bool_iff in H. congruence. }
    replace (la - lb - 1 + 1)%Z with (la - lb)%Z by lia. split; assumption.
Qed.

Lemma binade_mono (x y : Q) : 0 < x -> x <= y -> (binade x <= binade y)%Z.
Proof.
  intros Hx Hxy. assert (Hy : 0 < y) by lra.
  destruct (binade_spec x Hx) as [Hx1 _]. destruct (binade_spec y Hy) as [_ Hy2].
  assert (H : 2 ^ binade x < 2 ^ (binade y + 1)) by lra.
  apply Qpower_lt_compat_l_inv in H; [lia | reflexivity].
Qed.

Lemma round64_positive_mono (x y : Q) :
  0 < x -> x <= y -> round64_positive x <= round64_positive y.
Proof.
  intros Hx Hxy. assert (Hy : 0 < y) by lra.
  pose proof (binade_mono x y Hx Hxy) as Hb.
  unfold round64_positive.
  set (ex := ulp_exponent x). set (ey := ulp_exponent y).
  assert (Hexy : (ex <= ey)%Z) by (subst ex ey; unfold ulp_exponent; lia).
  pose proof (two_power_pos ex) as Px. pose proof (two_power_pos ey) as Py.
  pose proof (two_power_pos (- ex)) as Pnx. pose proof (two_power_pos (- ey)) as Pny.
  destruct (Z.eq_dec ex ey) as [Heq | Hne].
  - rewrite <- Heq.
    assert (Hm : (round_half_even (x * 2 ^ (- ex)) <= round_half_even (y * 2 ^ (- ex)))%Z)
      by (apply round_half_even_mono; nra).
    rewrite Zle_Qle in Hm. nra.
  - assert (Hlt : (ex + 1 <= ey)%Z) by lia.
    assert (Hby : (ey = binade y - 52)%Z) by (subst ex ey; unfold ulp_exponent in *; lia).
    assert (Hbx : (binade x + 1 <= ex + 53)%Z) by (subst ex; unfold ulp_exponent; lia).
    destruct (binade_spec x Hx) as [_ Hx2]. destruct (binade_spec y Hy) as [Hy1 _].
    (* upper bound for x *)
    assert (Ux : inject_Z (round_half_even (x * 2 ^ (- ex))) <= inject_Z (2 ^ 53)).
    { rewrite <- Zle_Qle. rewrite <- (round_half_even_inject_Z (2 ^ 53)).
      apply round_half_even_mono. rewrite two_power_Z by lia.
      assert (x <= 2 ^ (ex + 53)).
      { apply Qle_trans with (2 ^ (binade x + 1)); [lra | apply two_power_le; lia]. }
      assert (E : 2 ^ (ex + 53) * 2 ^ (- ex) == 2 ^ 53)
        by (rewrite <- two_power_plus; replace (ex + 53 + - ex)%Z with 53%Z by lia; reflexivity).
      nra. }
    assert (Ly : inject_Z (2 ^ 52) <= inject_Z (round_half_even (y * 2 ^ (- ey)))).
    { rewrite <- Zle_Qle. rewrite <- (round_half_even_inject_Z (2 ^ 52)) at 1.
      apply round_half_even_mono. rewrite two_power_Z by lia.
      assert (E : 2 ^ binade y * 2 ^ (- ey) == 2 ^ 52)
        by (rewrite <- two_power_plus; replace (binade y + - ey)%Z with 52%Z by lia; reflexivity).
      nra. }
    rewrite (two_power_Z 53) in Ux by lia. rewrite (two_power_Z 52) in Ly by lia.
    assert (E1 : 2 ^ 53 * 2 ^ ex == 2 ^ (ex + 53))
      by (rewrite <- two_power_plus; replace (53 + ex)%Z with (ex + 53)%Z by lia; reflexivity).
    assert (E2 : 2 ^ 52 * 2 ^ ey == 2 ^ (ey + 52))
      by (rewrite <- two_power_plus; replace (52 + ey)%Z with (ey + 52)%Z by lia; reflexivity).
    assert (E3 : 2 ^ (ex + 53) <= 2 ^ (ey + 52)) by (apply two_power_le; lia).
    nra.
Qed.

Lemma round64_positive_nonneg (x : Q) : 0 < x -> 0 <= round64_positive x.
Proof.
  intros Hx. unfold round64_positive.
  pose proof (two_power_pos (ulp_exponent x)) as P.
  pose proof (two_power_pos (- ulp_exponent x)) as P'.
  assert (H : (0 <= round_half_even (x * 2 ^ (- ulp_exponent x)))%Z).
  { rewrite <- (round_half_even_inject_Z 0). apply round_half_even_mono.
    change (inject_Z 0) with 0. nra. }
  rewrite Zle_Qle in H. change (inject_Z 0) with 0 in H. nra.
Qed.

Lemma round64_mono (x y : Q) : x <= y -> round64 x <= round64 y.
Proof.
  intros Hxy. unfold round64.
  destruct (Qcompare x 0) eqn:Ex; destruct (Qcompare y 0) eqn:Ey;
    order_of Ex; order_of Ey; rewrite ?Qred_correct; try lra.
  - apply round64_positive_nonneg. exact Ey.
  - pose proof (round64_positive_nonneg (- x)). lra.
  - pose proof (round64_positive_mono (- y) (- x)). lra.
  - pose proof (round64_positive_nonneg (- x)).
    pose proof (round64_positive_nonneg y). lra.
  - apply round64_positive_mono; lra.
Qed.

Lemma round64_nonneg (x : Q) : 0 <= x -> 0 <= round64 x.
Proof. intros H. change 0 with (round64 0) at 1. apply round64_mono. exact H. Qed.

Lemma round_half_even_nearest (q : Q) :
  Qabs (inject_Z (round_half_even q) - q) <= 1 # 2.
Proof.
  unfold round_half_even.
  destruct (floor_bounds q) as [Hlo Hhi].
  destruct (Qcompare (q - inject_Z (Qfloor q)) (1 # 2)) eqn:Ecmp; order_of Ecmp.
  - destruct (Z.even (Qfloor q)).
    + apply Qabs_case; intros; lra.
    + rewrite inject_Z_plus. change (inject_Z 1) with 1. apply Qabs_case; intros; lra.
  - apply Qabs_case; intros; lra.
  - rewrite inject_Z_plus. change (inject_Z 1) with 1. apply Qabs_case; intros; lra.
Qed.

Lemma round64_exact_examples :
  round64 1 = 1 /\ round64 100 = 100 /\ round64 (2 ^ (-1022)) == 2 ^ (-1022).
Proof. repeat split; vm_compute; reflexivity. Qed.

(** In the normal range rounding moves a number by at most the fraction
    2^-53 of itself. *)
Lemma round64_relative_error (x : Q) :
  2 ^ (-1022) <= x -> Qabs (round64 x - x) <= x * 2 ^ (-53).
Proof.
  intros Hx. pose proof (two_power_pos (-1022)) as Pmin.
  assert (Hpos : 0 < x) by lra.
  unfold round64. replace (Qcompare x 0) with Gt by (symmetry; apply Qgt_alt; exact Hpos).
  rewrite Qred_correct. unfold round64_positive.
  destruct (binade_spec x Hpos) as [Hb1 Hb2].
  assert (Hb : (-1022 <= binade x)%Z).
  { assert (H : 2 ^ (-1022) < 2 ^ (binade x + 1)) by lra.
    apply Qpower_lt_compat_l_inv in H; [lia | reflexivity]. }
  assert (He : ulp_exponent x = (binade x - 52)%Z) by (unfold ulp_exponent; lia).
  rewrite He. set (e := (binade x - 52)%Z).
  pose proof (round_half_even_nearest (x * 2 ^ (- e))) as Hn.
  pose proof (two_power_pos e) as Pe. pose proof (two_power_inv e) as Hinv.
  assert (E : 2 ^ binade x * 2 ^ (-53) == 2 ^ e * (1 # 2)).
  { rewrite <- two_power_plus. replace (binade x + -53)%Z with (e + -1)%Z by (subst e; lia).
    rewrite two_power_plus. reflexivity. }
  pose proof (two_power_pos (-53)) as P53.
  set (k := inject_Z (round_half_even (x * 2 ^ (- e)))) in *.
  apply Qabs_Qle_condition in Hn. destruct Hn as [Hn1 Hn2].
  apply Qabs_Qle_condition. split; nra.
Qed.

Lemma round64_zero (x : Q) : x == 0 -> round64 x = 0.
Proof. intros H. unfold round64. apply Qeq_alt in H. rewrite H. reflexivity. Qed.

(** [(m / n) * 100] in binary64 against the exact [100 * m / n]. *)
Lemma percent_error (m n : nat) :
  (0 < n)%nat -> (Z.of_nat n < 2 ^ 63)%Z ->
  Qabs (round64 (round64 (inject_Z (Z.of_nat m) / inject_Z (Z.of_nat n)) * 100)
        - 100 * inject_Z (Z.of_nat m) / inject_Z (Z.of_nat n))
  <= 100 * inject_Z (Z.of_nat m) / inject_Z (Z.of_nat n) * 2 ^ (-51).
Proof.
  intros Hn Hbig.
  set (M := inject_Z (Z.of_nat m)). set (N := inject_Z (Z.of_nat n)).
  assert (HN : 0 < N) by (subst N; unfold Qlt; simpl; lia).
  assert (HN63 : N < 2 ^ 63).
  { subst N. rewrite <- (two_power_Z 63) by lia. rewrite <- Zlt_Qlt. exact Hbig. }
  destruct m as [|m'].
  - assert (Hq : M / N == 0) by (subst M; simpl; unfold Qdiv; ring).
    rewrite (round64_zero _ Hq).
    rewrite (round64_zero (0 * 100)) by reflexivity.
    assert (E : 100 * M / N == 0) by (subst M; simpl; unfold Qdiv; ring).
    rewrite E. vm_compute. discriminate.
  - assert (HM : 1 <= M) by (subst M; rewrite <- (Zle_Qle 1); lia).
    set (q := M / N).
    assert (Hqpos : 0 < q) by (subst q; apply Qlt_shift_div_l; lra).
    assert (HqN : q * N == M) by (subst q; field; lra).
    pose proof (two_power_pos (-1022)) as Pmin.
    assert (Hmin63 : 2 ^ (-1022) * 2 ^ 63 <= 1).
    { rewrite <- two_power_plus. vm_compute. discriminate. }
    assert (Hq : 2 ^ (-1022) <= q) by nra.
    pose proof (round64_relative_error q Hq) as Ha.
    pose proof (round64_mono _ _ Hq) as Hamin.
    destruct round64_exact_examples as (_ & _ & Hex). rewrite Hex in Hamin.
    set (a := round64 q) in *.
    assert (Hb : 2 ^ (-1022) <= a * 100) by nra.
    pose proof (round64_relative_error (a * 100) Hb) as Hr.
    set (r := round64 (a * 100)) in *.
    assert (E : 100 * M / N == 100 * q) by (subst q; unfold Qdiv; ring).
    rewrite E.
    pose proof (two_power_pos (-53)) as P53.
    assert (U1 : 2 ^ (-53) <= 1) by (vm_compute; discriminate).
    assert (U2 : 2 ^ (-51) == 4 * 2 ^ (-53)) by (vm_compute; reflexivity).
    rewrite U2.
    apply Qabs_Qle_condition in Ha. destruct Ha as [Ha1 Ha2].
    apply Qabs_Qle_condition in Hr. destruct Hr as [Hr1 Hr2].
    set (u := 2 ^ (-53)) in *.
    apply Qabs_Qle_condition. split; nra.
Qed.

End Binary64.

(** ** Risk scoring *)

Lemma merge_keys_In_iff micro ids quasi_columns keys c lk rk :
  merge_keys micro ids quasi_columns = inr keys ->
  In (c, lk, rk) keys <->
  In c quasi_columns /\ getitem micro c = Some lk /\ getitem ids c = Some rk.
Proof.
  revert keys. induction quasi_columns as [|c0 rest IH]; intros keys Hk; simpl in Hk.
  - injection Hk as <-. simpl. tauto.
  - destruct (getitem micro c0) as [lk0|] eqn:E0; [| discriminate].
    destruct (getitem ids c0) as [rk0|] eqn:E1; [| discriminate].
    destruct (merge_keys micro ids rest) as [e|ks] eqn:E2; [discriminate |].
    injection Hk as <-. simpl. rewrite (IH ks eq_refl). split.
    + intros [[= <- <- <-] | (Hin & Hl & Hr)]; [auto | auto].
    + intros ([-> | Hin] & Hl & Hr); [left; congruence | right; auto].
Qed.

Lemma rows_match_true keys i j :
  rows_match keys i j = true <->
  forall c lk rk, In (c, lk, rk) keys ->
                  cell_eqb (key_at lk rk i) (key_at rk lk j) = true.
Proof.
  unfold rows_match. rewrite forallb_forall. split.
  - intros H c lk rk Hin. exact (H _ Hin).
  - intros H [[c lk] rk] Hin. exact (H _ _ _ Hin).
Qed.

(** The cast the join applies to a key keeps missing what was missing. *)
Lemma key_at_missing k other i :
  is_missing (key_at k other i) = is_missing (cell_at k i).
Proof.
  unfold key_at, cell_at, key_cells.
  destruct k as [vs|vs|vs|vs], other; try reflexivity.
  simpl. revert i. induction vs as [|v vs IH]; intros [|i]; simpl; auto.
Qed.

(** Two key values are equal when both are missing, or when neither is and
    they hold the same number or text. *)
Lemma cell_eqb_cases a b :
  cell_eqb a b = true <->
  (is_missing a = true /\ is_missing b = true)
  \/ (is_missing a = false /\ is_missing b = false /\ cell_eqb a b = true).
Proof.
  destruct a, b; simpl; split; try tauto; try discriminate;
    intuition discriminate.
Qed.

Lemma join_rows_In nl nr keys i j :
  In (i, j) (join_rows nl nr keys) <->
  (i < nl)%nat /\ (j < nr)%nat /\ rows_match keys i j = true.
Proof.
  unfold join_rows. rewrite in_flat_map. split.
  - intros (i' & Hi & Hin). apply in_map_iff in Hin as (j' & [= <- <-] & Hj).
    apply filter_In in Hj as [Hj Hm]. apply in_seq in Hi, Hj. repeat split; [lia | lia | exact Hm].
  - intros (Hi & Hj & Hm). exists i. split; [apply in_seq; lia |].
    apply in_map. apply filter_In. split; [apply in_seq; lia | exact Hm].
Qed.

Lemma NoDup_map_pair (i : nat) (l : list nat) :
  List.NoDup l -> List.NoDup (map (pair i) l).
Proof.
  induction 1 as [|j l Hnotin Hnd IH]; simpl; constructor; [| exact IH].
  intros Hin. apply in_map_iff in Hin as (j' & [= ->] & Hj'). contradiction.
Qed.

(** No pair of rows is joined twice. *)
Lemma join_rows_NoDup nl nr keys : List.NoDup (join_rows nl nr keys).
Proof.
  unfold join_rows. generalize (seq_NoDup nl 0). generalize (seq 0 nl) as l.
  induction l as [|i l IH]; intros Hnd; simpl; [constructor |].
  apply List.NoDup_cons_iff in Hnd as [Hnotin Hnd].
  apply List.NoDup_app.
  - apply NoDup_map_pair. apply List.NoDup_filter. apply seq_NoDup.
  - apply IH. exact Hnd.
  - intros [i' j'] H1 H2. apply in_map_iff in H1 as (j & [= <- <-] & _).
    apply in_flat_map in H2 as (i2 & Hi2 & H2).
    apply in_map_iff in H2 as (j2 & [= <- <-] & _). contradiction.
Qed.

Lemma missing_in_nil d quasi_columns :
  missing_in d quasi_columns = [] <->
  Forall (fun c => has_column c d = true) quasi_columns.
Proof.
  unfold missing_in. induction quasi_columns as [|c rest IH]; simpl.
  - split; [constructor | reflexivity].
  - destruct (has_column c d) eqn:E; simpl.
    + rewrite IH. split; [intros H; constructor; assumption | intros H; inversion H; assumption].
    + split; [discriminate | intros H; inversion H; congruence].
Qed.

Lemma merge_keys_present micro ids quasi_columns :
  Forall (fun c => has_column c micro = true) quasi_columns ->
  Forall (fun c => has_column c ids = true) quasi_columns ->
  exists keys, merge_keys micro ids quasi_columns = inr keys
               /\ length keys = length quasi_columns
               /\ (dtypes_coercible micro ids quasi_columns = true ->
                   coerce_merge_keys keys = None).
Proof.
  induction quasi_columns as [|c rest IH]; intros Hm Hi; simpl.
  - exists []. repeat split.
  - inversion Hm as [|? ? Hc Hm']; inversion Hi as [|? ? Hc' Hi']; subst.
    apply has_column_true in Hc as [lk Hlk]. apply has_column_true in Hc' as [rk Hrk].
    destruct (IH Hm' Hi') as (keys & Hk & Hlen & Hco).
    rewrite Hlk, Hrk, Hk. exists ((c, lk, rk) :: keys). simpl.
    repeat split; [congruence |].
    intros [Hc Hrest]%andb_prop. rewrite Hc. auto.
Qed.

(** A join that returns: its keys were found, passed the dtype check, were
    not none, and the suffixes made no two labels equal. *)
Lemma merge_inr left right on merged :
  merge left right on = inr merged ->
  exists keys,
    merge_keys left right on = inr keys
    /\ keys <> []
    /\ coerce_merge_keys keys = None
    /\ items_overlap_with_suffix left right on = []
    /\ merged = join_rows (len left) (len right) keys.
Proof.
  unfold merge. intros H.
  destruct (merge_keys left right on) as [e|keys]; [discriminate |].
  destruct (coerce_merge_keys keys) eqn:Eco; [discriminate |].
  destruct keys as [|k keys']; [discriminate |].
  destruct (items_overlap_with_suffix left right on) eqn:Es; [| discriminate].
  injection H as <-. exists (k :: keys').
  split; [reflexivity |]. split; [discriminate |]. split; [exact Eco |].
  split; reflexivity.
Qed.

Lemma merge_of_keys left right on keys :
  merge_keys left right on = inr keys ->
  keys <> [] ->
  coerce_merge_keys keys = None ->
  items_overlap_with_suffix left right on = [] ->
  merge left right on = inr (join_rows (len left) (len right) keys).
Proof.
  intros Hk Hne Hco Hs. unfold merge. rewrite Hk, Hco, Hs.
  destruct keys; [contradiction | reflexivity].
Qed.

Lemma merge_not_KeyError micro ids quasi_columns e :
  Forall (fun c => has_column c micro = true) quasi_columns ->
  Forall (fun c => has_column c ids = true) quasi_columns ->
  merge micro ids quasi_columns = inl e -> is_KeyError e = false.
Proof.
  intros Hm Hi. unfold merge.
  destruct (merge_keys_present _ _ _ Hm Hi) as (keys & -> & _ & _).
  assert (Hc : forall e', coerce_merge_keys keys = Some e' -> is_KeyError e' = false).
  { induction keys as [|[[n lk] rk] rest IHk]; simpl; [discriminate |].
    destruct (keys_coercible lk rk); [exact IHk |].
    intros e' [= <-]. reflexivity. }
  destruct (coerce_merge_keys keys) as [e'|] eqn:E.
  - intros [= <-]. apply Hc. reflexivity.
  - destruct keys; [intros [= <-]; reflexivity |].
    destruct (items_overlap_with_suffix micro ids quasi_columns);
      [discriminate | intros [= <-]; reflexivity].
Qed.

Section Risk.
Context `{G : Generator}.

Lemma calculate_risk_run (st : state) microdata true_ids micro ids quasi_columns :
  heap st !! microdata = Some micro ->
  heap st !! true_ids = Some ids ->
  calculate_risk microdata true_ids quasi_columns st
  = (risk_outcome micro ids quasi_columns, st).
Proof.
  intros Hm Hi. unfold calculate_risk, risk_outcome, bind, deref, missing_in.
  rewrite Hm, Hi.
  destruct (List.filter _ quasi_columns) as [|a mm];
    destruct (List.filter _ quasi_columns) as [|b mt]; try reflexivity.
  unfold lift. destruct (merge micro ids quasi_columns); reflexivity.
Qed.

Lemma calculate_risk_state (st : state) microdata true_ids quasi_columns :
  snd (calculate_risk microdata true_ids quasi_columns st) = st.
Proof.
  destruct (heap st !! microdata) as [micro|] eqn:Hm.
  - destruct (heap st !! true_ids) as [ids|] eqn:Hi.
    + rewrite (calculate_risk_run st _ _ micro ids) by assumption. reflexivity.
    + unfold calculate_risk, bind, deref. rewrite Hm, Hi. reflexivity.
  - unfold calculate_risk, bind, deref. rewrite Hm. reflexivity.
Qed.

(** C1 (amended). For a non-empty list of quasi-identifiers that both tables
    have columns for, whose columns pass merge's dtype check and for which
    the suffixes of the join make no two column labels equal, and a
    microdata table of fewer than 2^63 rows, [calculate_risk] returns and
    leaves the state untouched.  On a microdata table without rows the pair
    is [(0, 0)]; otherwise the risk is [(match_count / len(microdata)) * 100]
    as binary64 computes it, the quotient rounded and then the product, which
    is within the fraction 2^-51 of [100 * match_count / len(microdata)]. *)
Theorem calculate_risk_percent (st : state) microdata true_ids micro ids quasi_columns :
  heap st !! microdata = Some micro ->
  heap st !! true_ids = Some ids ->
  quasi_columns <> [] ->
  Forall (fun c => has_column c micro = true /\ has_column c ids = true) quasi_columns ->
  dtypes_coercible micro ids quasi_columns = true ->
  items_overlap_with_suffix micro ids quasi_columns = [] ->
  Z.of_nat (len micro) < 2 ^ 63 ->
  exists match_count risk_percent,
    calculate_risk microdata true_ids quasi_columns st
    = (inr (match_count, risk_percent), st)
    /\ if Nat.eqb (len micro) 0
       then match_count = 0%nat /\ risk_percent = 0%Q
       else risk_percent
            = round64 (round64 (inject_Z (Z.of_nat match_count)
                                / inject_Z (Z.of_nat (len micro))) * 100)
            /\ (Qabs (risk_percent - risk_percent_spec match_count (len micro))
                <= risk_percent_spec match_count (len micro) * 2 ^ (-51))%Q.
Proof.
  intros Hm Hi Hne Hcols Hdt Hsuffix Hrows.
  assert (Hcm : Forall (fun c => has_column c micro = true) quasi_columns)
    by (eapply List.Forall_impl; [| exact Hcols]; simpl; tauto).
  assert (Hci : Forall (fun c => has_column c ids = true) quasi_columns)
    by (eapply List.Forall_impl; [| exact Hcols]; simpl; tauto).
  rewrite (calculate_risk_run st _ _ micro ids) by assumption. unfold risk_outcome.
  rewrite (proj2 (missing_in_nil _ _) Hcm), (proj2 (missing_in_nil _ _) Hci).
  destruct (merge_keys_present _ _ _ Hcm Hci) as (keys & Hk & Hlen & Hco).
  assert (Hkeys : keys <> []).
  { destruct keys; [| discriminate]. destruct quasi_columns; [contradiction | discriminate]. }
  rewrite (merge_of_keys micro ids quasi_columns keys Hk Hkeys (Hco Hdt) Hsuffix).
  eexists _, _. split; [reflexivity |].
  destruct (len micro) as [|n] eqn:En; cbn [Nat.eqb].
  - split; reflexivity.
  - replace (Nat.ltb 0 (S n)) with true by reflexivity.
    split; [reflexivity |]. unfold risk_percent_spec. apply percent_error; lia.
Qed.

(** C2 (amended). Whenever [calculate_risk] returns, [match_count] is the
    number of joined pairs of rows, each pair counted once, and a microdata
    row and a reference row are joined exactly when, in every selected
    quasi-identifier, both are missing the value or both have one and the
    two values are equal: a missing value is matched by a missing value and
    by no present one. *)
Theorem joined_rows_missing_together (st : state) microdata true_ids micro ids
    quasi_columns match_count risk_percent :
  heap st !! microdata = Some micro ->
  heap st !! true_ids = Some ids ->
  fst (calculate_risk microdata true_ids quasi_columns st)
  = inr (match_count, risk_percent) ->
  exists merged,
    merge micro ids quasi_columns = inr merged
    /\ match_count = length merged
    /\ List.NoDup merged
    /\ forall i j,
         In (i, j) merged <->
         (i < len micro)%nat /\ (j < len ids)%nat
         /\ forall c lk rk,
              In c quasi_columns ->
              getitem micro c = Some lk ->
              getitem ids c = Some rk ->
              (is_missing (cell_at lk i) = true /\ is_missing (cell_at rk j) = true)
              \/ (is_missing (cell_at lk i) = false
                  /\ is_missing (cell_at rk j) = false
                  /\ cell_eqb (key_at lk rk i) (key_at rk lk j) = true).
Proof.
  intros Hm Hi Hrun.
  rewrite (calculate_risk_run st _ _ micro ids) in Hrun by assumption.
  unfold risk_outcome in Hrun. cbn [fst] in Hrun.
  destruct (missing_in micro quasi_columns); [| destruct (missing_in ids quasi_columns); discriminate].
  destruct (missing_in ids quasi_columns); [| discriminate].
  destruct (merge micro ids quasi_columns) as [e|merged] eqn:Emerge; [discriminate |].
  injection Hrun as <- _. exists merged.
  destruct (merge_inr _ _ _ _ Emerge) as (keys & Hk & _ & _ & _ & ->).
  split; [reflexivity |]. split; [reflexivity |]. split; [apply join_rows_NoDup |].
  intros i j. rewrite join_rows_In, rows_match_true.
  split; intros (Hi' & Hj & Hall); (split; [exact Hi' |]; split; [exact Hj |]).
  - intros c lk rk Hc Hlk Hrk.
    rewrite <- (key_at_missing lk rk i), <- (key_at_missing rk lk j).
    apply cell_eqb_cases. apply (Hall c).
    apply (merge_keys_In_iff _ _ _ _ c lk rk Hk). auto.
  - intros c lk rk Hc.
    apply (merge_keys_In_iff _ _ _ _ c lk rk Hk) in Hc as (Hc & Hlk & Hrk).
    apply cell_eqb_cases.
    rewrite (key_at_missing lk rk i), (key_at_missing rk lk j). eauto.
Qed.

(** C4. [calculate_risk] raises a [KeyError] exactly when a quasi-identifier
    has no column in the microdata or in the reference table, and the error
    then carries the list missing from the one and the list missing from the
    other. *)
Theorem calculate_risk_KeyError (st : state) microdata true_ids micro ids quasi_columns :
  heap st !! microdata = Some micro ->
  heap st !! true_ids = Some ids ->
  let outcome := fst (calculate_risk microdata true_ids quasi_columns st) in
  ((exists e, outcome = inl e /\ is_KeyError e = true) <->
   Exists (fun c => has_column c micro = false \/ has_column c ids = false)
          quasi_columns)
  /\ (forall e, outcome = inl e -> is_KeyError e = true ->
      e = KeyError_quasi (missing_in micro quasi_columns)
                         (missing_in ids quasi_columns)).
Proof.
  intros Hm Hi outcome. subst outcome.
  rewrite (calculate_risk_run st _ _ micro ids) by assumption.
  unfold risk_outcome. cbn [fst].
  destruct (missing_in micro quasi_columns) as [|a mm] eqn:Emm.
  - destruct (missing_in ids quasi_columns) as [|b mt] eqn:Emt.
    + pose proof (proj1 (missing_in_nil _ _) Emm) as Hcm.
      pose proof (proj1 (missing_in_nil _ _) Emt) as Hci.
      assert (Hno : forall e, match merge micro ids quasi_columns with
                              | inr merged => inr (length merged,
                                    if Nat.ltb 0 (len micro)
                                    then round64
                                           (round64 (inject_Z (Z.of_nat (length merged))
                                                     / inject_Z (Z.of_nat (len micro)))
                                            * 100)
                                    else 0%Q)
                              | inl e' => inl e'
                              end = inl e -> is_KeyError e = false).
      { intros e. destruct (merge micro ids quasi_columns) as [e'|] eqn:E; [| discriminate].
        intros [= <-]. exact (merge_not_KeyError _ _ _ _ Hcm Hci E). }
      split; [split |].
      * intros (e & He & Hk). rewrite (Hno _ He) in Hk. discriminate.
      * intros Hex. apply List.Exists_exists in Hex as (c & Hin & Hc).
        rewrite List.Forall_forall in Hcm, Hci.
        specialize (Hcm _ Hin). specialize (Hci _ Hin). destruct Hc; congruence.
      * intros e He Hk. rewrite (Hno _ He) in Hk. discriminate.
    + split; [split |].
      * intros _. apply List.Exists_exists.
        assert (Hb : In b (missing_in ids quasi_columns)) by (rewrite Emt; left; reflexivity).
        apply filter_In in Hb as [Hin Hb]. exists b. split; [exact Hin |].
        right. destruct (has_column b ids); [discriminate | reflexivity].
      * intros _. eexists. split; reflexivity.
      * intros e [= <-] _. reflexivity.
  - split; [split |].
    + intros _. apply List.Exists_exists.
      assert (Ha : In a (missing_in micro quasi_columns)) by (rewrite Emm; left; reflexivity).
      apply filter_In in Ha as [Hin Ha]. exists a. split; [exact Hin |].
      left. destruct (has_column a micro); [discriminate | reflexivity].
    + intros _. eexists. split; reflexivity.
    + intros e [= <-] _. reflexivity.
Qed.

End Risk.

(** *** Runs of the risk score on the sample tables *)

Import Samples.

Lemma calculate_risk_percent_people :
  let st := process [people; registry] in
  (heap st !! 0%nat = Some people /\ heap st !! 1%nat = Some registry)
  /\ (["age"; "gender"] <> []
      /\ Forall (fun c => has_column c people = true /\ has_column c registry = true)
                ["age"; "gender"]
      /\ dtypes_coercible people registry ["age"; "gender"] = true
      /\ items_overlap_with_suffix people registry ["age"; "gender"] = []
      /\ Z.of_nat (len people) < 2 ^ 63)
  /\ exists match_count risk_percent,
       calculate_risk 0%nat 1%nat ["age"; "gender"] st
       = (inr (match_count, risk_percent), st)
       /\ if Nat.eqb (len people) 0
          then match_count = 0%nat /\ risk_percent = 0%Q
          else risk_percent
               = round64 (round64 (inject_Z (Z.of_nat match_count)
                                   / inject_Z (Z.of_nat (len people))) * 100)
               /\ (Qabs (risk_percent - risk_percent_spec match_count (len people))
                   <= risk_percent_spec match_count (len people) * 2 ^ (-51))%Q.
Proof.
  intros st.
  assert (H0 : heap st !! 0%nat = Some people) by reflexivity.
  assert (H1 : heap st !! 1%nat = Some registry) by reflexivity.
  assert (Hne : ["age"; "gender"] <> []) by discriminate.
  assert (Hc : Forall (fun c => has_column c people = true
                                /\ has_column c registry = true) ["age"; "gender"])
    by (repeat constructor).
  assert (Hd : dtypes_coercible people registry ["age"; "gender"] = true) by reflexivity.
  assert (Hs : items_overlap_with_suffix people registry ["age"; "gender"] = [])
    by reflexivity.
  assert (Hr : Z.of_nat (len people) < 2 ^ 63) by reflexivity.
  split; [split; assumption |].
  split; [split; [exact Hne | split; [exact Hc | split; [exact Hd | split; [exact Hs | exact Hr]]]] |].
  exact (calculate_risk_percent st 0%nat 1%nat people registry _ H0 H1 Hne Hc Hd Hs Hr).
Defined.

(** C1 as stated fails.  The column precondition does not make the call
    return: a microdata table without rows and an empty list of
    quasi-identifiers raise, a column of numbers in one table and of text in
    the other raises, and so does a microdata column that already carries
    the name the join's suffix gives to another.  And the risk returned is
    not [100 * match_count / len(microdata)]: for two matches out of three
    rows it is neither that number nor the binary64 number nearest to it. *)
Lemma calculate_risk_no_rows_no_quasi :
  (len no_rows = 0%nat
   /\ Forall (fun c => has_column c no_rows = true /\ has_column c registry = true) []
   /\ fst (calculate_risk 0%nat 1%nat [] (process [no_rows; registry]))
      = inl IndexError)
  /\ (Forall (fun c => has_column c people = true /\ has_column c text_registry = true)
             ["age"]
      /\ fst (calculate_risk 0%nat 1%nat ["age"] (process [people; text_registry]))
         = inl (ValueError_merge "age"))
  /\ (Forall (fun c => has_column c suffixed = true /\ has_column c payroll = true)
             ["age"]
      /\ fst (calculate_risk 0%nat 1%nat ["age"] (process [suffixed; payroll]))
         = inl MergeError)
  /\ (Forall (fun c => has_column c people = true /\ has_column c registry = true)
             ["age"; "gender"]
      /\ fst (calculate_risk 0%nat 1%nat ["age"; "gender"] (process [people; registry]))
         = inr (2%nat, 2345624805922133 # 35184372088832)
      /\ len people = 3%nat
      /\ ~ (2345624805922133 # 35184372088832 == risk_percent_spec 2 3)%Q
      /\ ~ (2345624805922133 # 35184372088832 == round64 (risk_percent_spec 2 3))%Q).
Proof.
  split; [split; [reflexivity | split; [constructor | vm_compute; reflexivity]] |].
  split; [split; [repeat constructor | vm_compute; reflexivity] |].
  split; [split; [repeat constructor | vm_compute; reflexivity] |].
  split; [repeat constructor |].
  split; [vm_compute; reflexivity |].
  split; [reflexivity |].
  split; vm_compute; discriminate.
Qed.

Lemma joined_rows_missing_together_blank :
  let st := process [with_blank; blank_registry] in
  (heap st !! 0%nat = Some with_blank /\ heap st !! 1%nat = Some blank_registry)
  /\ fst (calculate_risk 0%nat 1%nat ["age"] st) = inr (1%nat, 50%Q)
  /\ exists merged,
       merge with_blank blank_registry ["age"] = inr merged
       /\ 1%nat = length merged
       /\ List.NoDup merged
       /\ forall i j,
            In (i, j) merged <->
            (i < len with_blank)%nat /\ (j < len blank_registry)%nat
            /\ forall c lk rk,
                 In c ["age"] ->
                 getitem with_blank c = Some lk ->
                 getitem blank_registry c = Some rk ->
                 (is_missing (cell_at lk i) = true /\ is_missing (cell_at rk j) = true)
                 \/ (is_missing (cell_at lk i) = false
                     /\ is_missing (cell_at rk j) = false
                     /\ cell_eqb (key_at lk rk i) (key_at rk lk j) = true).
Proof.
  intros st.
  assert (H0 : heap st !! 0%nat = Some with_blank) by reflexivity.
  assert (H1 : heap st !! 1%nat = Some blank_registry) by reflexivity.
  assert (Hr : fst (calculate_risk 0%nat 1%nat ["age"] st) = inr (1%nat, 50%Q))
    by (vm_compute; reflexivity).
  split; [split; assumption |]. split; [exact Hr |].
  exact (joined_rows_missing_together st 0%nat 1%nat with_blank blank_registry
           ["age"] 1%nat 50%Q H0 H1 Hr).
Defined.

(** C2 as stated fails: the second microdata row has no age, the only
    reference row has no age either, and the two are joined: the row with the
    missing value is the one match counted. *)
Lemma missing_matches_missing :
  cell_at (Float64 [Some (33 # 1); None]) 1 = NaN
  /\ getitem with_blank "age" = Some (Float64 [Some (33 # 1); None])
  /\ merge with_blank blank_registry ["age"] = inr [(1%nat, 0%nat)]
  /\ fst (calculate_risk 0%nat 1%nat ["age"] (process [with_blank; blank_registry]))
     = inr (1%nat, 50%Q).
Proof. repeat split; vm_compute; reflexivity. Qed.

(** C3 (the code at the failing input). Three microdata rows and two
    reference rows scored with no quasi-identifier selected: the column
    check of lines 34 to 37 passes, and the call raises the [IndexError] of
    the join instead of returning the six pairs of a cross match. *)
Theorem empty_quasi_not_cross_match :
  len people = 3%nat /\ len registry = 2%nat
  /\ missing_in people [] = [] /\ missing_in registry [] = []
  /\ fst (calculate_risk 0%nat 1%nat [] (process [people; registry])) = inl IndexError.
Proof. repeat split. Qed.

Lemma calculate_risk_KeyError_people :
  let st := process [people; registry] in
  let outcome := fst (calculate_risk 0%nat 1%nat ["age"; "name"; "zip"] st) in
  (heap st !! 0%nat = Some people /\ heap st !! 1%nat = Some registry)
  /\ ((exists e, outcome = inl e /\ is_KeyError e = true) <->
      Exists (fun c => has_column c people = false \/ has_column c registry = false)
             ["age"; "name"; "zip"])
  /\ (forall e, outcome = inl e -> is_KeyError e = true ->
      e = KeyError_quasi (missing_in people ["age"; "name"; "zip"])
                         (missing_in registry ["age"; "name"; "zip"])).
Proof.
  intros st outcome.
  assert (H0 : heap st !! 0%nat = Some people) by reflexivity.
  assert (H1 : heap st !! 1%nat = Some registry) by reflexivity.
  split; [split; assumption |].
  exact (calculate_risk_KeyError st 0%nat 1%nat people registry
           ["age"; "name"; "zip"] H0 H1).
Defined.

(** ** Anonymisation *)

Section Anonymiser.
Context `{G : Generator}.

Lemma deref_bound (st : state) l d :
  heap st !! l = Some d -> deref l st = (inr d, st).
Proof. intros H. unfold deref. rewrite H. reflexivity. Qed.

Lemma deref_unbound (st : state) l :
  heap st !! l = None -> deref l st = (inl (Unbound l), st).
Proof. intros H. unfold deref. rewrite H. reflexivity. Qed.

Lemma fresh_unbound (st : state) : heap st !! fresh (dom (heap st)) = None.
Proof. apply not_elem_of_dom. apply is_fresh. Qed.

Lemma copy_bound (st : state) l d :
  heap st !! l = Some d ->
  copy l st = (inr (fresh (dom (heap st))),
               mkState (<[fresh (dom (heap st)) := d]> (heap st)) (np_random st)).
Proof. intros H. unfold copy, bind. rewrite (deref_bound st l d H). reflexivity. Qed.

Lemma df_getitem_bound (st : state) l d column :
  heap st !! l = Some d ->
  df_getitem l column st =
  (match getitem d column with
   | Some s => inr s
   | None => inl (KeyError column)
   end, st).
Proof.
  intros H. unfold df_getitem, bind. rewrite (deref_bound st l d H).
  destruct (getitem d column); reflexivity.
Qed.

Lemma df_setitem_bound (st : state) l d column s :
  heap st !! l = Some d ->
  df_setitem l column s st =
  (inr tt, mkState (<[l := setitem d column s]> (heap st)) (np_random st)).
Proof. intros H. unfold df_setitem, bind. rewrite (deref_bound st l d H). reflexivity. Qed.

(** A call of [add_laplace_noise], step by step. *)
Lemma add_laplace_noise_run (st : state) df d column scale random_state :
  heap st !! df = Some d ->
  let l := fresh (dom (heap st)) in
  add_laplace_noise df column scale random_state st =
  match after_seed random_state (np_random st) with
  | None => (inl ValueError_seed, mkState (<[l := d]> (heap st)) (np_random st))
  | Some g =>
      match Qcompare scale 0 with
      | Lt => (inl ValueError_scale, mkState (<[l := d]> (heap st)) g)
      | _ =>
          match noised_frame d column (fst (laplace_draws scale (len d) g)) with
          | inl e =>
              (inl e, mkState (<[l := d]> (heap st))
                              (snd (laplace_draws scale (len d) g)))
          | inr d' =>
              (inr l, mkState (<[l := d']> (heap st))
                              (snd (laplace_draws scale (len d) g)))
          end
      end
  end.
Proof.
  intros Hd l. unfold add_laplace_noise.
  unfold bind at 1. rewrite (copy_bound st df d Hd). fold l.
  set (h1 := <[l := d]> (heap st)).
  assert (Hl : forall g, heap (mkState h1 g) !! l = Some d)
    by (intros g; apply lookup_insert_eq).
  unfold bind at 1.
  assert (Hseed :
    match random_state with
    | Some s => np_random_seed s
    | None => ret tt
    end (mkState h1 (np_random st)) =
    match after_seed random_state (np_random st) with
    | None => (inl ValueError_seed, mkState h1 (np_random st))
    | Some g => (inr tt, mkState h1 g)
    end).
  { unfold after_seed, np_random_seed. destruct random_state as [s|]; [| reflexivity].
    destruct ((s <? 0) || (4294967295 <? s)); reflexivity. }
  rewrite Hseed. destruct (after_seed random_state (np_random st)) as [g|]; [| reflexivity].
  unfold bind at 1. unfold bind at 1. rewrite (deref_bound _ l d (Hl g)).
  unfold ret at 1. unfold bind at 1. unfold np_random_laplace.
  destruct (Qcompare scale 0) eqn:Ecmp; try reflexivity;
    cbn [np_random heap];
    destruct (laplace_draws scale (len d) g) as [noise g'] eqn:Edraw;
    cbn [fst snd];
    (unfold bind at 1; rewrite (df_getitem_bound _ l d column (Hl g'));
     unfold noised_frame;
     destruct (getitem d column) as [col|] eqn:Ecol; [| reflexivity];
     destruct (is_numeric_dtype col) eqn:Enum; cbn [negb]; [| reflexivity];
     unfold bind at 1; rewrite (df_getitem_bound _ l d column (Hl g')), Ecol;
     unfold bind at 1, lift at 1;
     destruct (series_add col noise) as [e|summed]; [reflexivity |];
     unfold ret at 1; unfold bind at 1, lift at 1;
     destruct (astype_int (series_round summed)) as [e|casted]; [reflexivity |];
     unfold ret at 1; unfold bind at 1;
     rewrite (df_setitem_bound _ l d column casted (Hl g'));
     unfold ret; cbn [heap np_random]; subst h1;
     rewrite insert_insert_eq; reflexivity).
Qed.

(** A call of [generalise_age]: it always returns the copy. *)
Lemma generalise_age_run (st : state) df d column :
  heap st !! df = Some d ->
  let l := fresh (dom (heap st)) in
  generalise_age df column st =
  (inr l, mkState (<[l := generalised_frame d column]> (heap st)) (np_random st)).
Proof.
  intros Hd l. unfold generalise_age.
  unfold bind at 1. rewrite (copy_bound st df d Hd). fold l.
  set (h1 := <[l := d]> (heap st)).
  assert (Hl : forall g, heap (mkState h1 g) !! l = Some d)
    by (intros g; apply lookup_insert_eq).
  unfold bind at 1. rewrite (deref_bound _ l d (Hl _)).
  unfold generalised_frame.
  destruct (has_column column d) eqn:Ehas; cbn [negb].
  - apply has_column_true in Ehas as [col Ecol]. rewrite Ecol.
    unfold bind at 1, try_except.
    unfold bind at 1. rewrite (df_getitem_bound _ l d column (Hl _)), Ecol.
    unfold bind at 1, lift at 1.
    destruct (pd_cut col bins labels) as [e|cut].
    + reflexivity.
    + unfold ret at 1. rewrite (df_setitem_bound _ l d column cut (Hl _)).
      unfold ret. cbn [heap np_random]. subst h1. rewrite insert_insert_eq.
      reflexivity.
  - apply has_column_false in Ehas. rewrite Ehas. reflexivity.
Qed.

Lemma add_laplace_noise_output (st : state) df d column scale random_state :
  heap st !! df = Some d ->
  output (fst (add_laplace_noise df column scale random_state st))
         (snd (add_laplace_noise df column scale random_state st)) =
  match after_seed random_state (np_random st) with
  | None => inl ValueError_seed
  | Some g =>
      match Qcompare scale 0 with
      | Lt => inl ValueError_scale
      | _ => noised_frame d column (fst (laplace_draws scale (len d) g))
      end
  end.
Proof.
  intros Hd. rewrite (add_laplace_noise_run st df d) by exact Hd.
  destruct (after_seed random_state (np_random st)) as [g|]; [| reflexivity].
  destruct (Qcompare scale 0); try reflexivity;
    (destruct (noised_frame d column _) as [e|d']; [reflexivity |];
     cbn [fst snd output heap]; rewrite lookup_insert_eq; reflexivity).
Qed.

Lemma add_laplace_noise_heap (st : state) df column scale random_state :
  heap st ⊆ heap (snd (add_laplace_noise df column scale random_state st))
  /\ returns_new_object (heap st)
       (fst (add_laplace_noise df column scale random_state st)).
Proof.
  destruct (heap st !! df) as [d|] eqn:Hd.
  - rewrite (add_laplace_noise_run st df d) by exact Hd.
    pose proof (fresh_unbound st) as Hf.
    destruct (after_seed random_state (np_random st)) as [g|];
      [| split; [apply insert_subseteq; exact Hf | exact I]].
    destruct (Qcompare scale 0);
      try (split; [apply insert_subseteq; exact Hf | exact I]);
      (destruct (noised_frame d column _) as [e|d'];
       (split; [apply insert_subseteq; exact Hf | first [exact I | exact Hf]])).
  - unfold add_laplace_noise, bind at 1, copy, bind. rewrite (deref_unbound st df Hd).
    split; [reflexivity | exact I].
Qed.

Lemma generalise_age_heap (st : state) df column :
  heap st ⊆ heap (snd (generalise_age df column st))
  /\ returns_new_object (heap st) (fst (generalise_age df column st)).
Proof.
  destruct (heap st !! df) as [d|] eqn:Hd.
  - rewrite (generalise_age_run st df d) by exact Hd.
    pose proof (fresh_unbound st) as Hf.
    split; [apply insert_subseteq; exact Hf | exact Hf].
  - unfold generalise_age, bind at 1, copy, bind. rewrite (deref_unbound st df Hd).
    split; [reflexivity | exact I].
Qed.

End Anonymiser.

(** *** The age bands *)

Lemma Qle_bool_trans a b x :
  Qle_bool a b = true -> Qle_bool b x = true -> Qle_bool a x = true.
Proof.
  rewrite !Qle_bool_iff. intros Hab Hbx. eapply Qle_trans; eassumption.
Qed.

(** [pd.cut] with the edges and labels of [generalise_age] is the table of
    age bands. *)
Lemma cut_value_age_band (x : Q) :
  cut_value bins labels (Some x) = age_band x.
Proof.
  unfold cut_value, age_band, bins, labels, searchsorted_right.
  change (inject_Z 0) with 0%Q. change (inject_Z 20) with 20%Q.
  change (inject_Z 30) with 30%Q. change (inject_Z 40) with 40%Q.
  change (inject_Z 50) with 50%Q. change (inject_Z 60) with 60%Q.
  change (inject_Z 70) with 70%Q. change (inject_Z 120) with 120%Q.
  pose proof (Qle_bool_trans 0 20 x eq_refl) as H0.
  pose proof (Qle_bool_trans 20 30 x eq_refl) as H1.
  pose proof (Qle_bool_trans 30 40 x eq_refl) as H2.
  pose proof (Qle_bool_trans 40 50 x eq_refl) as H3.
  pose proof (Qle_bool_trans 50 60 x eq_refl) as H4.
  pose proof (Qle_bool_trans 60 70 x eq_refl) as H5.
  pose proof (Qle_bool_trans 70 120 x eq_refl) as H6.
  destruct (Qle_bool 0 x), (Qle_bool 20 x), (Qle_bool 30 x), (Qle_bool 40 x),
    (Qle_bool 50 x), (Qle_bool 60 x), (Qle_bool 70 x), (Qle_bool 120 x);
    try reflexivity;
    first [ discriminate (H0 eq_refl) | discriminate (H1 eq_refl)
          | discriminate (H2 eq_refl) | discriminate (H3 eq_refl)
          | discriminate (H4 eq_refl) | discriminate (H5 eq_refl)
          | discriminate (H6 eq_refl) ].
Qed.

Lemma pd_cut_numeric (col : Series) :
  is_numeric_dtype col = true ->
  pd_cut col bins labels =
  inr (Categorical (map (fun v => match v with
                                  | Some x => age_band x
                                  | None => None
                                  end) (numeric_values col))).
Proof.
  destruct col as [vs|vs|vs|vs]; simpl; try discriminate; intros _.
  - rewrite List.map_map. do 2 f_equal. apply List.map_ext. intros z.
    apply cut_value_age_band.
  - do 2 f_equal. apply List.map_ext. intros [x|]; [apply cut_value_age_band | reflexivity].
Qed.

(** *** Rounding and casting *)

Lemma trunc_inject_Z (z : Z) : trunc (inject_Z z) = z.
Proof. unfold trunc. simpl. apply Z.quot_1_r. Qed.

(** An integer within the range of [int64] is cast to itself. *)
Lemma to_int64_inject_Z (z : Z) :
  - 2 ^ 63 <= z < 2 ^ 63 -> to_int64 (inject_Z z) = z.
Proof.
  intros Hz. unfold to_int64. rewrite trunc_inject_Z.
  replace ((- 2 ^ 63 <=? z) && (z <? 2 ^ 63)) with true; [reflexivity |].
  symmetry. apply andb_true_iff. split; [apply Z.leb_le | apply Z.ltb_lt]; lia.
Qed.

Lemma cast_rounded_int (vs : list Z) (noise : list Q) :
  length vs = length noise ->
  cast_all (map (fun v => match v with
                          | Some q => Some (inject_Z (round_half_even q))
                          | None => None
                          end) (add_int_noise vs noise))
  = Some (rounded_sums (map (fun z => Some (round64 (inject_Z z))) vs) noise).
Proof.
  revert noise. induction vs as [|v vs IH]; intros [|n noise] Hlen;
    try discriminate; [reflexivity |].
  cbn [add_int_noise map cast_all rounded_sums].
  rewrite IH by (simpl in Hlen; lia). reflexivity.
Qed.

Lemma cast_rounded_float (vs : list (option Q)) (noise : list Q) :
  length vs = length noise ->
  cast_all (map (fun v => match v with
                          | Some q => Some (inject_Z (round_half_even q))
                          | None => None
                          end) (add_float_noise vs noise))
  = if forallb (fun v => match v with Some _ => true | None => false end) vs
    then Some (rounded_sums vs noise) else None.
Proof.
  revert noise. induction vs as [|v vs IH]; intros [|n noise] Hlen;
    try discriminate; [reflexivity |].
  cbn [add_float_noise map cast_all rounded_sums forallb].
  destruct v as [q|]; [| reflexivity]. cbn [cast_all andb].
  rewrite IH by (simpl in Hlen; lia).
  destruct (forallb _ vs); reflexivity.
Qed.

(** The outcome of lines 16 to 18 on a numeric column: the rounded sums as
    integers when no value is missing, the cast's exception otherwise. *)
Lemma noised_frame_numeric d column col noise :
  getitem d column = Some col ->
  is_numeric_dtype col = true ->
  series_len col = length noise ->
  noised_frame d column noise =
  if complete col
  then inr (setitem d column (Int64 (rounded_sums (float_values col) noise)))
  else inl IntCastingNaNError.
Proof.
  intros Hcol Hnum Hlen. unfold noised_frame. rewrite Hcol, Hnum. cbn [negb].
  unfold series_add. rewrite Hlen, Nat.eqb_refl. cbn [negb].
  destruct col as [vs|vs|vs|vs]; try discriminate;
    cbn [series_len series_round astype_int float_values] in Hlen |- *.
  - rewrite cast_rounded_int by exact Hlen.
    unfold complete. cbn [numeric_values].
    replace (forallb _ (map _ vs)) with true; [reflexivity |].
    clear. induction vs; simpl; auto.
  - rewrite cast_rounded_float by exact Hlen. unfold complete. cbn [numeric_values].
    destruct (forallb _ vs); reflexivity.
Qed.

(** ** The claims about the anonymiser *)

Section AnonymiserClaims.
Context `{G : Generator}.

(** With a seed numpy accepts and a scale that is not negative, the error of
    line 17 is raised exactly for a column that exists and is not numeric,
    and it names that column. *)
Lemma add_laplace_noise_not_numeric (st : state) df d column scale random_state g c :
  heap st !! df = Some d ->
  after_seed random_state (np_random st) = Some g ->
  Qcompare scale 0 <> Lt ->
  fst (add_laplace_noise df column scale random_state st)
  = inl (ValueError_not_numeric c)
  <-> c = column
      /\ exists col, getitem d column = Some col /\ is_numeric_dtype col = false.
Proof.
  intros Hd Hseed Hscale.
  rewrite (add_laplace_noise_run st df d) by exact Hd. rewrite Hseed.
  assert (Hcore :
    noised_frame d column (fst (laplace_draws scale (len d) g))
    = inl (ValueError_not_numeric c)
    <-> c = column
        /\ exists col, getitem d column = Some col /\ is_numeric_dtype col = false).
  { unfold noised_frame.
    destruct (getitem d column) as [col|].
    - destruct (is_numeric_dtype col) eqn:Enum; cbn [negb].
      + split.
        * unfold series_add, astype_int.
          destruct (negb _); [discriminate |].
          destruct col; try discriminate; simpl;
            destruct (cast_all _); discriminate.
        * intros (_ & col' & [= <-] & Hf). congruence.
      + split; [intros [= <-]; eauto | intros (-> & _); reflexivity].
    - split; [discriminate | intros (_ & col & Hc & _); discriminate]. }
  destruct (Qcompare scale 0); try contradiction;
    (destruct (noised_frame d column _) as [e|d'] eqn:En; cbn [fst];
     [ rewrite <- Hcore; split; congruence
     | split; [discriminate | intros H; apply Hcore in H; discriminate] ]).
Qed.

(** With a seed numpy accepts and a scale that is not negative, a numeric
    column as long as the frame comes back as the rounded sums, typed as
    integers, when none of its values is missing. *)
Lemma add_laplace_noise_numeric (st : state) df d column col scale random_state g :
  heap st !! df = Some d ->
  after_seed random_state (np_random st) = Some g ->
  Qcompare scale 0 <> Lt ->
  getitem d column = Some col ->
  is_numeric_dtype col = true ->
  series_len col = len d ->
  output (fst (add_laplace_noise df column scale random_state st))
         (snd (add_laplace_noise df column scale random_state st))
  = if complete col
    then inr (setitem d column
                (Int64 (rounded_sums (float_values col)
                          (fst (laplace_draws scale (len d) g)))))
    else inl IntCastingNaNError.
Proof.
  intros Hd Hseed Hscale Hcol Hnum Hlen.
  rewrite (add_laplace_noise_output st df d) by exact Hd. rewrite Hseed.
  assert (Hn : length (fst (laplace_draws scale (len d) g)) = len d).
  { clear. generalize (len d) as n. intros n. revert g.
    induction n as [|n IH]; intros g; [reflexivity |].
    simpl. destruct (laplace_next scale g) as [x g1].
    specialize (IH g1). destruct (laplace_draws scale n g1). simpl in *. lia. }
  destruct (Qcompare scale 0); try contradiction;
    apply noised_frame_numeric; congruence.
Qed.

(** C6. Two calls in a row with the same table, column, scale and seed hand
    back the same thing: the same exception, or two frames with the same
    contents; the second call leaves the frame of the first as it was. *)
Theorem seeded_noise_reproducible (st : state) df d column scale seed :
  heap st !! df = Some d ->
  let '(r1, st1) := add_laplace_noise df column scale (Some seed) st in
  let '(r2, st2) := add_laplace_noise df column scale (Some seed) st1 in
  output r1 st1 = output r2 st2 /\ output r1 st2 = output r1 st1.
Proof.
  intros Hd.
  pose proof (add_laplace_noise_output st df d column scale (Some seed) Hd) as H1.
  pose proof (add_laplace_noise_heap st df column scale (Some seed)) as [Hsub1 Hnew1].
  pose proof (add_laplace_noise_run st df d column scale (Some seed) Hd) as Hrun1.
  destruct (add_laplace_noise df column scale (Some seed) st) as [r1 st1].
  cbn [fst snd] in H1, Hsub1, Hnew1.
  assert (Hd1 : heap st1 !! df = Some d) by (eapply lookup_weaken; eassumption).
  pose proof (add_laplace_noise_output st1 df d column scale (Some seed) Hd1) as H2.
  pose proof (add_laplace_noise_heap st1 df column scale (Some seed)) as [Hsub2 _].
  destruct (add_laplace_noise df column scale (Some seed) st1) as [r2 st2].
  cbn [fst snd] in H2, Hsub2.
  split; [rewrite H1, H2; reflexivity |].
  destruct r1 as [e|l]; [reflexivity |]. unfold output.
  assert (Hb : is_Some (heap st1 !! l)).
  { cbv zeta in Hrun1.
    destruct (after_seed (Some seed) (np_random st)); [| discriminate].
    destruct (Qcompare scale 0); try discriminate;
      (destruct (noised_frame d column _); [discriminate |];
       injection Hrun1 as -> ->; cbn [heap]; rewrite lookup_insert_eq; eauto). }
  destruct Hb as [d' Hd']. rewrite Hd'.
  rewrite (lookup_weaken _ _ _ _ Hd' Hsub2). reflexivity.
Qed.

(** C7 (amended). A seed resets numpy's one process-wide generator and the
    call leaves it where its draws ended: after a call with an accepted seed
    [s] the generator is [len] draws past [seeded s], and a later call
    without a seed takes its noise from there. *)
Theorem unseeded_call_continues_stream (st : state) df d column scale s
    df' d' column' scale' :
  heap st !! df = Some d ->
  heap st !! df' = Some d' ->
  0 <= s <= 4294967295 ->
  Qcompare scale 0 <> Lt ->
  Qcompare scale' 0 <> Lt ->
  let '(r1, st1) := add_laplace_noise df column scale (Some s) st in
  let '(r2, st2) := add_laplace_noise df' column' scale' None st1 in
  np_random st1 = snd (laplace_draws scale (len d) (seeded s))
  /\ output r2 st2
     = noised_frame d' column' (fst (laplace_draws scale' (len d') (np_random st1))).
Proof.
  intros Hd Hd' Hs Hscale Hscale'.
  pose proof (add_laplace_noise_heap st df column scale (Some s)) as [Hsub1 _].
  pose proof (add_laplace_noise_run st df d column scale (Some s) Hd) as Hrun1.
  destruct (add_laplace_noise df column scale (Some s) st) as [r1 st1].
  cbn [fst snd] in Hsub1.
  assert (Hd1 : heap st1 !! df' = Some d') by (eapply lookup_weaken; eassumption).
  pose proof (add_laplace_noise_output st1 df' d' column' scale' None Hd1) as H2.
  destruct (add_laplace_noise df' column' scale' None st1) as [r2 st2].
  cbn [fst snd] in H2. split.
  - cbv zeta in Hrun1. unfold after_seed in Hrun1.
    replace ((s <? 0) || (4294967295 <? s)) with false in Hrun1
      by (symmetry; apply orb_false_iff; split; [apply Z.ltb_ge | apply Z.ltb_ge]; lia).
    destruct (Qcompare scale 0); try contradiction;
      (destruct (noised_frame d column _); injection Hrun1 as _ ->; reflexivity).
  - rewrite H2. unfold after_seed.
    destruct (Qcompare scale' 0); try contradiction; reflexivity.
Qed.

(** C8. On a numeric column [generalise_age] returns a copy in which every
    value is replaced by its age band: [<20] on [0, 20), [20-29] on
    [20, 30), up to [70+] on [70, 120), bounds included below and excluded
    above, and no band for a missing value or a value outside [0, 120); 20
    goes to [20-29], 69 to [60-69], 70 to [70+], -5 and 150 to no band. *)
Theorem generalise_age_bands (st : state) df d column col :
  heap st !! df = Some d ->
  getitem d column = Some col ->
  is_numeric_dtype col = true ->
  (exists l st',
      generalise_age df column st = (inr l, st')
      /\ heap st' !! l
         = Some (setitem d column
                   (Categorical (map (fun v => match v with
                                               | Some x => age_band x
                                               | None => None
                                               end) (numeric_values col)))))
  /\ map (fun x => cut_value bins labels (Some x)) [20; 69; 70; -5; 150]%Q
     = [Some "20-29"; Some "60-69"; Some "70+"; None; None].
Proof.
  intros Hd Hcol Hnum. split; [| reflexivity].
  eexists _, _. split; [apply (generalise_age_run st df d column Hd) |].
  cbn [heap]. rewrite lookup_insert_eq. unfold generalised_frame.
  rewrite Hcol, (pd_cut_numeric col Hnum). reflexivity.
Qed.

(** C9. [generalise_age] never raises.  It returns a copy; the copy has the
    contents of the input when the column is absent and when bucketing
    raises, and has the column replaced by its categories otherwise. *)
Theorem generalise_age_never_raises (st : state) df d column :
  heap st !! df = Some d ->
  exists l st',
    generalise_age df column st = (inr l, st')
    /\ heap st' !! l
       = Some (if has_column column d
               then match getitem d column with
                    | Some col =>
                        match pd_cut col bins labels with
                        | inr cut => setitem d column cut
                        | inl _ => d
                        end
                    | None => d
                    end
               else d).
Proof.
  intros Hd. eexists _, _.
  split; [apply (generalise_age_run st df d column Hd) |].
  cbn [heap]. rewrite lookup_insert_eq. unfold generalised_frame.
  destruct (has_column column d) eqn:Ehas.
  - destruct (getitem d column) as [col|]; [| reflexivity].
    destruct (pd_cut col bins labels); reflexivity.
  - apply has_column_false in Ehas. rewrite Ehas. reflexivity.
Qed.

(** C10. None of the three functions changes an object the caller holds:
    [calculate_risk] leaves the whole state as it was and its result is a
    function of the contents of the two frames and of the list of columns,
    and after [add_laplace_noise] and [generalise_age], returning or raising,
    every frame of the old store is still there with its contents, the frame
    returned being an object the old store did not have. *)
Theorem inputs_untouched (st : state) microdata true_ids quasi_columns
    df column scale random_state :
  (snd (calculate_risk microdata true_ids quasi_columns st) = st
   /\ match heap st !! microdata, heap st !! true_ids with
      | Some micro, Some ids =>
          fst (calculate_risk microdata true_ids quasi_columns st)
          = risk_outcome micro ids quasi_columns
      | _, _ => True
      end)
  /\ (heap st ⊆ heap (snd (add_laplace_noise df column scale random_state st))
      /\ returns_new_object (heap st)
           (fst (add_laplace_noise df column scale random_state st)))
  /\ (heap st ⊆ heap (snd (generalise_age df column st))
      /\ returns_new_object (heap st) (fst (generalise_age df column st))).
Proof.
  split; [split; [apply calculate_risk_state |] |].
  - destruct (heap st !! microdata) as [micro|] eqn:Hm; [| exact I].
    destruct (heap st !! true_ids) as [ids|] eqn:Hi; [| exact I].
    rewrite (calculate_risk_run st _ _ micro ids) by assumption. reflexivity.
  - split; [apply add_laplace_noise_heap | apply generalise_age_heap].
Qed.

End AnonymiserClaims.

(** *** Runs of the anonymiser on the sample tables *)

(** C5 (the code at the failing input). The income column of the sample with
    a blank cell is numeric, and adding noise to it raises the error of the
    integer cast instead of returning a table; the input frame is as it
    was. *)
Theorem add_laplace_noise_blank_cell :
  let st := process [with_blank] in
  getitem with_blank "income" = Some (Float64 [Some (1200 # 1); None])
  /\ is_numeric_dtype (Float64 [Some (1200 # 1); None]) = true
  /\ fst (add_laplace_noise 0%nat "income" 1000 (Some 42) st) = inl IntCastingNaNError
  /\ heap (snd (add_laplace_noise 0%nat "income" 1000 (Some 42) st)) !! 0%nat
     = Some with_blank.
Proof. repeat split. Qed.

Lemma seeded_noise_reproducible_people :
  let st := process [people] in
  heap st !! 0%nat = Some people
  /\ let '(r1, st1) := add_laplace_noise 0%nat "income" 1000 (Some 42) st in
     let '(r2, st2) := add_laplace_noise 0%nat "income" 1000 (Some 42) st1 in
     output r1 st1 = output r2 st2 /\ output r1 st2 = output r1 st1.
Proof.
  intros st.
  assert (H0 : heap st !! 0%nat = Some people) by reflexivity.
  split; [exact H0 |].
  exact (seeded_noise_reproducible st 0%nat people "income" 1000 42 H0).
Defined.

Lemma unseeded_call_continues_stream_people :
  let st := process [people; with_blank] in
  (heap st !! 0%nat = Some people /\ heap st !! 1%nat = Some with_blank)
  /\ (0 <= 7 <= 4294967295 /\ Qcompare 1000 0 <> Lt /\ Qcompare 500 0 <> Lt)
  /\ let '(r1, st1) := add_laplace_noise 0%nat "income" 1000 (Some 7) st in
     let '(r2, st2) := add_laplace_noise 1%nat "age" 500 None st1 in
     np_random st1 = snd (laplace_draws 1000 (len people) (seeded 7))
     /\ output r2 st2
        = noised_frame with_blank "age"
            (fst (laplace_draws 500 (len with_blank) (np_random st1))).
Proof.
  intros st.
  assert (H0 : heap st !! 0%nat = Some people) by reflexivity.
  assert (H1 : heap st !! 1%nat = Some with_blank) by reflexivity.
  assert (Hs : 0 <= 7 <= 4294967295) by lia.
  assert (Ha : Qcompare 1000 0 <> Lt) by discriminate.
  assert (Hb : Qcompare 500 0 <> Lt) by discriminate.
  split; [split; assumption |].
  split; [split; [exact Hs | split; [exact Ha | exact Hb]] |].
  exact (unseeded_call_continues_stream st 0%nat people "income" 1000 7
           1%nat with_blank "age" 500 H0 H1 Hs Ha Hb).
Defined.

(** C7 as stated fails: the same call without a seed returns three different
    tables after an earlier call seeded with 1, after one seeded with 2, and
    after no earlier call.  The runs use the generator [lcg]; any generator
    whose stream depends on its seed separates them the same way. *)
Lemma later_call_depends_on_earlier_seed :
  let fresh_process := process [people] in
  let after s := snd (add_laplace_noise 0%nat "income" 1000 (Some s) fresh_process) in
  let later := result_of (add_laplace_noise 0%nat "income" 1000 None) in
  let incomes zs :=
    inr (setitem people "income" (Int64 zs)) : exn + DataFrame in
  later (after 1) = incomes [51280; 60970; 19500]
  /\ later (after 2) = incomes [51500; 61090; 19110]
  /\ later fresh_process = incomes [51000; 61620; 18890]
  /\ later (after 1) <> later (after 2)
  /\ later (after 1) <> later fresh_process.
Proof.
  repeat split; vm_compute; discriminate.
Qed.

Lemma generalise_age_bands_people :
  let st := process [people] in
  (heap st !! 0%nat = Some people
   /\ getitem people "age" = Some (Int64 [25; 41; 70])
   /\ is_numeric_dtype (Int64 [25; 41; 70]) = true)
  /\ (exists l st',
         generalise_age 0%nat "age" st = (inr l, st')
         /\ heap st' !! l
            = Some (setitem people "age"
                      (Categorical (map (fun v => match v with
                                                  | Some x => age_band x
                                                  | None => None
                                                  end)
                                        (numeric_values (Int64 [25; 41; 70]))))))
  /\ map (fun x => cut_value bins labels (Some x)) [20; 69; 70; -5; 150]%Q
     = [Some "20-29"; Some "60-69"; Some "70+"; None; None].
Proof.
  intros st.
  assert (H0 : heap st !! 0%nat = Some people) by reflexivity.
  assert (H1 : getitem people "age" = Some (Int64 [25; 41; 70])) by reflexivity.
  assert (H2 : is_numeric_dtype (Int64 [25; 41; 70]) = true) by reflexivity.
  split; [repeat split; assumption |].
  exact (generalise_age_bands st 0%nat people "age" _ H0 H1 H2).
Defined.

Lemma generalise_age_never_raises_text :
  let st := process [people] in
  heap st !! 0%nat = Some people
  /\ exists l st',
       generalise_age 0%nat "gender" st = (inr l, st')
       /\ heap st' !! l
          = Some (if has_column "gender" people
                  then match getitem people "gender" with
                       | Some col =>
                           match pd_cut col bins labels with
                           | inr cut => setitem people "gender" cut
                           | inl _ => people
                           end
                       | None => people
                       end
                  else people).
Proof.
  intros st.
  assert (H0 : heap st !! 0%nat = Some people) by reflexivity.
  split; [exact H0 |].
  exact (generalise_age_never_raises st 0%nat people "gender" H0).
Defined.

(** * Further properties of the helpers *)

(** ** Frames under an assignment *)

Lemma assoc_set_names c s s0 cols :
  assoc_get c cols = Some s0 -> map fst (assoc_set c s cols) = map fst cols.
Proof.
  induction cols as [|[n t] rest IH]; simpl; [discriminate |].
  destruct (String.eqb_spec c n) as [->|Hne]; [reflexivity |].
  intros H. simpl. f_equal. apply IH. exact H.
Qed.

Lemma column_names_setitem d column s s0 :
  getitem d column = Some s0 -> column_names (setitem d column s) = column_names d.
Proof. unfold getitem, column_names, setitem. simpl. apply assoc_set_names. Qed.

Lemma getitem_setitem_eq d column s : getitem (setitem d column s) column = Some s.
Proof. unfold getitem, setitem. simpl. apply assoc_get_set_eq. Qed.

Lemma getitem_setitem_ne d column c s :
  c <> column -> getitem (setitem d column s) c = getitem d c.
Proof. unfold getitem, setitem. simpl. apply assoc_get_set_ne. Qed.

Lemma rounded_sums_length vs noise :
  forallb (fun v => match v with Some _ => true | None => false end) vs = true ->
  length vs = length noise ->
  length (rounded_sums vs noise) = length noise.
Proof.
  revert noise. induction vs as [|v vs IH]; intros [|n noise] Hc Hlen;
    try discriminate; [reflexivity |].
  simpl in Hc. destruct v as [q|]; [| discriminate]. simpl.
  f_equal. apply IH; [exact Hc | simpl in Hlen; lia].
Qed.

Lemma rounded_sums_lookup vs noise i v n z :
  vs !! i = Some (Some v) -> noise !! i = Some n ->
  rounded_sums vs noise !! i = Some z ->
  z = to_int64 (inject_Z (round_half_even (round64 (v + n)))).
Proof.
  revert noise i. induction vs as [|w vs IH]; intros [|m noise] i Hv Hn Hz;
    try discriminate.
  destruct w as [q|]; [| discriminate]. destruct i as [|i]; simpl in *.
  - congruence.
  - eapply IH; eassumption.
Qed.

Lemma numeric_values_length col :
  is_numeric_dtype col = true -> length (numeric_values col) = series_len col.
Proof.
  destruct col; simpl; try discriminate; intros _; [apply length_map | reflexivity].
Qed.

Lemma float_values_length col :
  is_numeric_dtype col = true -> length (float_values col) = series_len col.
Proof.
  destruct col; simpl; try discriminate; intros _; [apply length_map | reflexivity].
Qed.

Lemma rounded_sums_float_length col noise :
  is_numeric_dtype col = true ->
  complete col = true ->
  series_len col = length noise ->
  length (rounded_sums (float_values col) noise) = length noise.
Proof.
  intros Hnum Hc Hlen. unfold complete in Hc.
  destruct col as [vs|vs|vs|vs]; try discriminate; cbn [float_values series_len] in *.
  - apply rounded_sums_length; [| rewrite length_map; exact Hlen].
    clear. induction vs; simpl; auto.
  - apply rounded_sums_length; assumption.
Qed.

Lemma pd_cut_length col cut :
  pd_cut col bins labels = inr cut -> series_len cut = series_len col.
Proof.
  destruct col as [vs|vs|vs|vs]; simpl.
  - intros [= <-]. simpl. apply length_map.
  - intros [= <-]. simpl. apply length_map.
  - destruct (has_text vs); [discriminate |]. intros [= <-]. simpl. apply length_map.
  - destruct (has_text vs); [discriminate |]. intros [= <-]. simpl. apply length_map.
Qed.

(** What lines 16 to 18 need to go through, and what they give then. *)
Lemma noised_frame_inr d column noise d' :
  noised_frame d column noise = inr d' ->
  exists col,
    getitem d column = Some col
    /\ is_numeric_dtype col = true
    /\ series_len col = length noise
    /\ complete col = true
    /\ d' = setitem d column (Int64 (rounded_sums (float_values col) noise)).
Proof.
  intros H. pose proof H as H0. unfold noised_frame in H.
  destruct (getitem d column) as [col|] eqn:Ecol; [| discriminate].
  destruct (is_numeric_dtype col) eqn:Enum; cbn [negb] in H; [| discriminate].
  unfold series_add in H.
  destruct (Nat.eqb (series_len col) (length noise)) eqn:Elen; cbn [negb] in H;
    [| discriminate].
  apply Nat.eqb_eq in Elen.
  rewrite (noised_frame_numeric d column col noise Ecol Enum Elen) in H0.
  exists col. destruct (complete col); [| discriminate].
  injection H0 as <-. repeat split; assumption.
Qed.

Section Helpers.
Context `{G : Generator}.

Lemma laplace_draws_length scale n (g : rng_state) :
  length (fst (laplace_draws scale n g)) = n.
Proof.
  revert g. induction n as [|n IH]; intros g; [reflexivity |].
  simpl. destruct (laplace_next scale g) as [x g1].
  specialize (IH g1). destruct (laplace_draws scale n g1). simpl in *. lia.
Qed.

(** A call of [add_laplace_noise] that returns. *)
Lemma add_laplace_noise_inr (st : state) df d column scale random_state l st' :
  heap st !! df = Some d ->
  add_laplace_noise df column scale random_state st = (inr l, st') ->
  exists g d',
    after_seed random_state (np_random st) = Some g
    /\ Qcompare scale 0 <> Lt
    /\ noised_frame d column (fst (laplace_draws scale (len d) g)) = inr d'
    /\ l = fresh (dom (heap st))
    /\ st' = mkState (<[l := d']> (heap st)) (snd (laplace_draws scale (len d) g)).
Proof.
  intros Hd Hrun. rewrite (add_laplace_noise_run st df d) in Hrun by exact Hd.
  cbv zeta in Hrun.
  destruct (after_seed random_state (np_random st)) as [g|]; [| discriminate].
  destruct (Qcompare scale 0) eqn:Ecmp; try discriminate;
    (destruct (noised_frame d column _) as [e|d'] eqn:En; [discriminate |];
     injection Hrun as <- <-; exists g, d';
     repeat split; [discriminate | exact En]).
Qed.

(** The frame a returning call hands back. *)
Lemma add_laplace_noise_returned (st : state) df d column scale random_state l st' :
  heap st !! df = Some d ->
  add_laplace_noise df column scale random_state st = (inr l, st') ->
  exists g col,
    after_seed random_state (np_random st) = Some g
    /\ getitem d column = Some col
    /\ is_numeric_dtype col = true
    /\ complete col = true
    /\ series_len col = len d
    /\ l = fresh (dom (heap st))
    /\ st' = mkState
               (<[l := setitem d column
                         (Int64 (rounded_sums (float_values col)
                                   (fst (laplace_draws scale (len d) g))))]>
                  (heap st))
               (snd (laplace_draws scale (len d) g)).
Proof.
  intros Hd Hrun.
  destruct (add_laplace_noise_inr st df d column scale random_state l st' Hd Hrun)
    as (g & d' & Hseed & _ & Hn & Hl & ->).
  destruct (noised_frame_inr _ _ _ _ Hn) as (col & Hcol & Hnum & Hlen & Hc & ->).
  rewrite laplace_draws_length in Hlen.
  exists g, col. repeat split; assumption.
Qed.

Lemma complete_Int64 zs : complete (Int64 zs) = true.
Proof. unfold complete. simpl. induction zs; simpl; auto. Qed.

End Helpers.

(** ** Noise and age bands, further *)

Section AnonymiserFurther.
Context `{G : Generator}.

(** X1. When [add_laplace_noise] returns, the frame it returns has the
    columns of the input under the same names in the same order and as many
    rows; the chosen column holds one integer per row and every other column
    is what it was. *)
Theorem add_laplace_noise_shape (st : state) df d column scale random_state l st' :
  heap st !! df = Some d ->
  add_laplace_noise df column scale random_state st = (inr l, st') ->
  exists d' zs,
    heap st' !! l = Some d'
    /\ column_names d' = column_names d
    /\ len d' = len d
    /\ getitem d' column = Some (Int64 zs)
    /\ length zs = len d
    /\ forall c, c <> column -> getitem d' c = getitem d c.
Proof.
  intros Hd Hrun.
  destruct (add_laplace_noise_inr st df d column scale random_state l st' Hd Hrun)
    as (g & d' & _ & _ & Hn & _ & ->).
  destruct (noised_frame_inr _ _ _ _ Hn) as (col & Hcol & Hnum & Hlen & Hc & ->).
  eexists _, _. cbn [heap]. rewrite lookup_insert_eq.
  split; [reflexivity |].
  split; [eapply column_names_setitem; exact Hcol |].
  split; [reflexivity |].
  split; [apply getitem_setitem_eq |].
  split.
  - rewrite (rounded_sums_float_length col _ Hnum Hc Hlen).
    apply laplace_draws_length.
  - intros c Hc'. apply getitem_setitem_ne. exact Hc'.
Qed.

(** X2. When [add_laplace_noise] returns, the integer stored in a row is
    within one half of the sum, as binary64 computes it, of the value of
    that row taken as a float and the noise drawn for it, provided that sum
    is within the range of [int64]. *)
Theorem add_laplace_noise_nearest (st : state) df d column col scale random_state
    g l st' :
  heap st !! df = Some d ->
  getitem d column = Some col ->
  after_seed random_state (np_random st) = Some g ->
  add_laplace_noise df column scale random_state st = (inr l, st') ->
  exists d' zs,
    heap st' !! l = Some d'
    /\ getitem d' column = Some (Int64 zs)
    /\ forall i v n z,
         float_values col !! i = Some (Some v) ->
         fst (laplace_draws scale (len d) g) !! i = Some n ->
         zs !! i = Some z ->
         (inject_Z (- 2 ^ 63) <= round64 (v + n))%Q ->
         (round64 (v + n) <= inject_Z (2 ^ 63 - 1))%Q ->
         (Qabs (inject_Z z - round64 (v + n)) <= 1 # 2)%Q.
Proof.
  intros Hd Hcol Hseed Hrun.
  destruct (add_laplace_noise_inr st df d column scale random_state l st' Hd Hrun)
    as (g0 & d' & Hseed' & _ & Hn & _ & ->).
  assert (g0 = g) as -> by congruence.
  destruct (noised_frame_inr _ _ _ _ Hn) as (col' & Hcol' & _ & _ & _ & ->).
  assert (col' = col) as -> by congruence.
  eexists _, _. cbn [heap]. rewrite lookup_insert_eq.
  split; [reflexivity |]. split; [apply getitem_setitem_eq |].
  intros i v n z Hv Hnoise Hz Hlow Hhigh.
  rewrite (rounded_sums_lookup _ _ _ _ _ _ Hv Hnoise Hz).
  rewrite to_int64_inject_Z; [apply round_half_even_nearest |].
  apply round_half_even_mono in Hlow, Hhigh.
  rewrite round_half_even_inject_Z in Hlow, Hhigh. lia.
Qed.

(** X3. Past the seed and scale checks the noise is drawn before the column
    is looked at: whether the call returns or raises for a missing column, a
    column that is not numeric or a missing value, it leaves the global
    generator one draw per row past the state it started the draw from. *)
Theorem add_laplace_noise_generator (st : state) df d column scale random_state g :
  heap st !! df = Some d ->
  after_seed random_state (np_random st) = Some g ->
  Qcompare scale 0 <> Lt ->
  np_random (snd (add_laplace_noise df column scale random_state st))
  = snd (laplace_draws scale (len d) g).
Proof.
  intros Hd Hseed Hscale.
  rewrite (add_laplace_noise_run st df d) by exact Hd. rewrite Hseed.
  destruct (Qcompare scale 0); try contradiction;
    destruct (noised_frame d column _); reflexivity.
Qed.

(** X4. A seed numpy refuses, or else a negative scale, is reported whatever
    the column is, absent and non-numeric ones included; a refused seed
    leaves the generator alone, and the copy made on line 12 stays behind
    with the contents of the input. *)
Theorem add_laplace_noise_bad_parameters (st : state) df d column scale random_state :
  heap st !! df = Some d ->
  after_seed random_state (np_random st) = None \/ Qcompare scale 0 = Lt ->
  fst (add_laplace_noise df column scale random_state st)
  = inl (match after_seed random_state (np_random st) with
         | None => ValueError_seed
         | Some _ => ValueError_scale
         end)
  /\ np_random (snd (add_laplace_noise df column scale random_state st))
     = match after_seed random_state (np_random st) with
       | None => np_random st
       | Some g => g
       end
  /\ heap (snd (add_laplace_noise df column scale random_state st))
     = <[fresh (dom (heap st)) := d]> (heap st).
Proof.
  intros Hd Hbad.
  rewrite (add_laplace_noise_run st df d) by exact Hd. cbv zeta.
  destruct (after_seed random_state (np_random st)) as [g|].
  - destruct Hbad as [Hbad | Hbad]; [discriminate |]. rewrite Hbad.
    repeat split.
  - repeat split.
Qed.

(** X5. Noise can be added again: on the frame a call returned, a further
    call on the same column with an accepted seed and a scale that is not
    negative and not above the 5000 the script's slider stops at returns
    too.  The column the first call left holds integers, none missing, and
    at such a scale the draws are finite. *)
Theorem add_laplace_noise_again (st : state) df d column scale random_state l st'
    scale' random_state' g' :
  heap st !! df = Some d ->
  add_laplace_noise df column scale random_state st = (inr l, st') ->
  after_seed random_state' (np_random st') = Some g' ->
  Qcompare scale' 0 <> Lt ->
  (scale' <= 5000)%Q ->
  exists l' st'', add_laplace_noise l column scale' random_state' st' = (inr l', st'').
Proof.
  intros Hd Hrun Hseed Hscale _.
  destruct (add_laplace_noise_returned st df d column scale random_state l st' Hd Hrun)
    as (g & col & _ & _ & Hnum & Hc & Hlen & _ & ->).
  set (zs := rounded_sums (float_values col) (fst (laplace_draws scale (len d) g))).
  set (d' := setitem d column (Int64 zs)).
  assert (Hd' : heap (mkState (<[l := d']> (heap st))
                              (snd (laplace_draws scale (len d) g))) !! l = Some d')
    by apply lookup_insert_eq.
  rewrite (add_laplace_noise_run _ l d' column scale' random_state' Hd'). cbv zeta.
  cbn [np_random] in Hseed |- *. rewrite Hseed.
  assert (Hn : noised_frame d' column (fst (laplace_draws scale' (len d') g'))
               = inr (setitem d' column
                        (Int64 (rounded_sums (float_values (Int64 zs))
                                  (fst (laplace_draws scale' (len d') g')))))).
  { rewrite (noised_frame_numeric d' column (Int64 zs));
      [| apply getitem_setitem_eq | reflexivity |].
    - rewrite complete_Int64. reflexivity.
    - rewrite laplace_draws_length. cbn [series_len len setitem index_len]. subst zs.
      rewrite (rounded_sums_float_length col _ Hnum Hc);
        [apply laplace_draws_length | rewrite laplace_draws_length; exact Hlen]. }
  rewrite Hn. destruct (Qcompare scale' 0); try contradiction; eauto.
Qed.

(** X6. The order of the two steps matters: once [generalise_age] has banded
    a numeric column, [add_laplace_noise] on that column raises the error of
    line 17. *)
Theorem noise_after_generalise (st : state) df d column col scale random_state g :
  heap st !! df = Some d ->
  getitem d column = Some col ->
  is_numeric_dtype col = true ->
  after_seed random_state (np_random st) = Some g ->
  Qcompare scale 0 <> Lt ->
  exists l st',
    generalise_age df column st = (inr l, st')
    /\ fst (add_laplace_noise l column scale random_state st')
       = inl (ValueError_not_numeric column).
Proof.
  intros Hd Hcol Hnum Hseed Hscale.
  eexists _, _. split; [apply (generalise_age_run st df d column Hd) |].
  set (d' := generalised_frame d column).
  assert (Hd' : heap (mkState (<[fresh (dom (heap st)) := d']> (heap st)) (np_random st))
                !! fresh (dom (heap st)) = Some d') by apply lookup_insert_eq.
  rewrite (add_laplace_noise_run _ _ d' column scale random_state Hd'). cbv zeta.
  cbn [np_random]. rewrite Hseed.
  assert (Hn : forall noise, noised_frame d' column noise
                             = inl (ValueError_not_numeric column)).
  { intros noise. unfold noised_frame, d', generalised_frame.
    rewrite Hcol, (pd_cut_numeric col Hnum), getitem_setitem_eq. reflexivity. }
  rewrite Hn. destruct (Qcompare scale 0); try contradiction; reflexivity.
Qed.

(** X7. [generalise_age] keeps the shape of the frame and the generator: the
    copy it returns has the same column names in the same order and as many
    rows, every column but the chosen one is what it was, the chosen one has
    as many values as before, and numpy's generator is not touched. *)
Theorem generalise_age_shape (st : state) df d column :
  heap st !! df = Some d ->
  exists l d',
    generalise_age df column st
    = (inr l, mkState (<[l := d']> (heap st)) (np_random st))
    /\ column_names d' = column_names d
    /\ len d' = len d
    /\ (series_len <$> getitem d' column) = (series_len <$> getitem d column)
    /\ forall c, c <> column -> getitem d' c = getitem d c.
Proof.
  intros Hd. eexists _, _.
  split; [apply (generalise_age_run st df d column Hd) |].
  unfold generalised_frame.
  destruct (getitem d column) as [col|] eqn:Ecol.
  - destruct (pd_cut col bins labels) as [e|cut] eqn:Ecut.
    + rewrite Ecol. repeat split.
    + split; [eapply column_names_setitem; exact Ecol |].
      split; [reflexivity |].
      split; [rewrite getitem_setitem_eq; simpl; f_equal; eapply pd_cut_length; exact Ecut |].
      intros c Hc. apply getitem_setitem_ne. exact Hc.
  - rewrite Ecol. repeat split.
Qed.

End AnonymiserFurther.

(** ** The join, further *)

Lemma cell_eqb_refl a : cell_eqb a a = true.
Proof.
  destruct a; simpl; [apply Qeq_bool_iff; reflexivity | apply String.eqb_refl | reflexivity].
Qed.

Lemma cell_eqb_sym a b : cell_eqb a b = true -> cell_eqb b a = true.
Proof.
  destruct a, b; simpl; try discriminate; try reflexivity.
  - rewrite !Qeq_bool_iff. intros H. symmetry. exact H.
  - rewrite !String.eqb_eq. congruence.
Qed.

Lemma cell_eqb_trans a b c :
  cell_eqb a b = true -> cell_eqb b c = true -> cell_eqb a c = true.
Proof.
  destruct a, b, c; simpl; try discriminate; try reflexivity.
  - rewrite !Qeq_bool_iff. intros H1 H2. rewrite H1. exact H2.
  - rewrite !String.eqb_eq. congruence.
Qed.

Lemma keys_coercible_refl s : keys_coercible s s = true.
Proof.
  unfold keys_coercible. destruct (Nat.eqb (series_len s) 0); simpl;
    destruct s; reflexivity.
Qed.

Lemma coerce_merge_keys_None keys :
  coerce_merge_keys keys = None <->
  forall c lk rk, In (c, lk, rk) keys -> keys_coercible lk rk = true.
Proof.
  induction keys as [|[[n lk] rk] rest IH]; simpl.
  - split; [intros _ c lk rk [] | reflexivity].
  - destruct (keys_coercible lk rk) eqn:E.
    + rewrite IH. split.
      * intros H c lk' rk' [[= <- <- <-] | Hin]; [exact E | eauto].
      * intros H c lk' rk' Hin. eapply H. right. exact Hin.
    + split; [discriminate |]. intros H.
      rewrite (H n lk rk) in E by (left; reflexivity). discriminate.
Qed.

(** What a returned score was computed from. *)
Lemma risk_outcome_inr micro ids quasi_columns m r :
  risk_outcome micro ids quasi_columns = inr (m, r) ->
  exists keys,
    merge_keys micro ids quasi_columns = inr keys
    /\ keys <> []
    /\ coerce_merge_keys keys = None
    /\ items_overlap_with_suffix micro ids quasi_columns = []
    /\ Forall (fun c => has_column c micro = true) quasi_columns
    /\ Forall (fun c => has_column c ids = true) quasi_columns
    /\ m = length (join_rows (len micro) (len ids) keys)
    /\ r = (if Nat.ltb 0 (len micro)
            then round64 (round64 (inject_Z (Z.of_nat m)
                                   / inject_Z (Z.of_nat (len micro))) * 100)
            else 0%Q).
Proof.
  unfold risk_outcome. intros H.
  destruct (missing_in micro quasi_columns) eqn:Emm;
    [| destruct (missing_in ids quasi_columns); discriminate].
  destruct (missing_in ids quasi_columns) eqn:Emt; [| discriminate].
  apply missing_in_nil in Emm, Emt.
  destruct (merge micro ids quasi_columns) as [e|merged] eqn:Emerge; [discriminate |].
  destruct (merge_inr _ _ _ _ Emerge) as (keys & Hk & Hne & Hco & Hs & ->).
  injection H as <- <-. exists keys.
  split; [exact Hk |]. split; [exact Hne |]. split; [exact Hco |]. split; [exact Hs |].
  split; [exact Emm |]. split; [exact Emt |]. split; reflexivity.
Qed.

Lemma risk_outcome_of_keys micro ids quasi_columns keys :
  Forall (fun c => has_column c micro = true) quasi_columns ->
  Forall (fun c => has_column c ids = true) quasi_columns ->
  merge_keys micro ids quasi_columns = inr keys ->
  keys <> [] ->
  coerce_merge_keys keys = None ->
  items_overlap_with_suffix micro ids quasi_columns = [] ->
  risk_outcome micro ids quasi_columns =
  inr (length (join_rows (len micro) (len ids) keys),
       if Nat.ltb 0 (len micro)
       then round64
              (round64 (inject_Z (Z.of_nat (length (join_rows (len micro) (len ids) keys)))
                        / inject_Z (Z.of_nat (len micro))) * 100)
       else 0%Q).
Proof.
  intros Hm Hi Hk Hne Hco Hs. unfold risk_outcome.
  rewrite (proj2 (missing_in_nil _ _) Hm), (proj2 (missing_in_nil _ _) Hi).
  rewrite (merge_of_keys micro ids quasi_columns keys Hk Hne Hco Hs). reflexivity.
Qed.

Lemma filter_length_mono {A} (f g : A -> bool) l :
  (forall a, f a = true -> g a = true) ->
  (length (List.filter f l) <= length (List.filter g l))%nat.
Proof.
  intros Himp. induction l as [|a l IH]; simpl; [lia |].
  destruct (f a) eqn:Ef.
  - rewrite (Himp _ Ef). simpl. lia.
  - destruct (g a); simpl; lia.
Qed.

Lemma join_rows_length_le nl nr keys keys' :
  (forall i j, rows_match keys' i j = true -> rows_match keys i j = true) ->
  (length (join_rows nl nr keys') <= length (join_rows nl nr keys))%nat.
Proof.
  intros Himp. unfold join_rows. induction (seq 0 nl) as [|i others IH]; simpl; [lia |].
  rewrite !length_app, !length_map.
  pose proof (filter_length_mono (fun j => rows_match keys' i j)
                (fun j => rows_match keys i j) (seq 0 nr) (Himp i)) as Hf.
  lia.
Qed.

Lemma join_rows_ext nl nr keys keys' :
  (forall i j, rows_match keys' i j = rows_match keys i j) ->
  join_rows nl nr keys' = join_rows nl nr keys.
Proof.
  intros Heq. unfold join_rows. apply flat_map_ext. intros i. f_equal.
  apply List.filter_ext. intros j. apply Heq.
Qed.

Lemma join_rows_bound nl nr keys b :
  (forall i, (length (List.filter (fun j => rows_match keys i j) (seq 0 nr)) <= b)%nat) ->
  (length (join_rows nl nr keys) <= nl * b)%nat.
Proof.
  intros Hb. unfold join_rows.
  assert (H : forall l, (length (flat_map (fun i => map (pair i)
                 (List.filter (fun j => rows_match keys i j) (seq 0 nr))) l)
                         <= length l * b)%nat).
  { induction l as [|i others IH]; simpl; [lia |].
    rewrite length_app, length_map. specialize (Hb i). lia. }
  specialize (H (seq 0 nl)). rewrite length_seq in H. exact H.
Qed.

Lemma filter_length_le_length {A} (f : A -> bool) l :
  (length (List.filter f l) <= length l)%nat.
Proof. induction l as [|a l IH]; simpl; [lia |]. destruct (f a); simpl; lia. Qed.

Lemma filter_none {A} (f : A -> bool) l :
  (forall a, In a l -> f a = false) -> List.filter f l = [].
Proof.
  induction l as [|a l IH]; intros H; simpl; [reflexivity |].
  rewrite (H a (or_introl eq_refl)). apply IH. intros b Hb. apply H. right. exact Hb.
Qed.

Lemma filter_at_most_one (f : nat -> bool) l :
  List.NoDup l ->
  (forall j j', In j l -> In j' l -> f j = true -> f j' = true -> j = j') ->
  (length (List.filter f l) <= 1)%nat.
Proof.
  induction l as [|a l IH]; intros Hnd Huniq; simpl; [lia |].
  inversion Hnd as [|? ? Hnotin Hnd']; subst.
  destruct (f a) eqn:Ea.
  - simpl. replace (List.filter f l) with (@nil nat); [simpl; lia |].
    symmetry. apply filter_none. intros j Hj. destruct (f j) eqn:Ej; [| reflexivity].
    exfalso. apply Hnotin.
    rewrite (Huniq a j (or_introl eq_refl) (or_intror Hj) Ea Ej). exact Hj.
  - apply IH; [exact Hnd' |]. intros j j' Hj Hj'. apply Huniq; right; assumption.
Qed.

Lemma quotient_nonneg m n :
  (0 <= inject_Z (Z.of_nat m) / inject_Z (Z.of_nat n))%Q.
Proof.
  unfold Qdiv. apply Qmult_le_0_compat.
  - unfold Qle. simpl. lia.
  - apply Qinv_le_0_compat. unfold Qle. simpl. lia.
Qed.

Lemma quotient_mono m m' n :
  (m' <= m)%nat ->
  (inject_Z (Z.of_nat m') / inject_Z (Z.of_nat n)
   <= inject_Z (Z.of_nat m) / inject_Z (Z.of_nat n))%Q.
Proof.
  intros Hle. unfold Qdiv. apply Qmult_le_compat_r.
  - rewrite <- Zle_Qle. lia.
  - apply Qinv_le_0_compat. unfold Qle. simpl. lia.
Qed.

(** The percentage of line 40 in binary64: not above 100 for a count not
    above the number of rows, growing with the count, never negative. *)
Lemma percent_le_100 m n :
  (m <= n)%nat -> (0 < n)%nat ->
  (round64 (round64 (inject_Z (Z.of_nat m) / inject_Z (Z.of_nat n)) * 100) <= 100)%Q.
Proof.
  intros Hle Hn.
  assert (Hpos : (0 < inject_Z (Z.of_nat n))%Q) by (unfold Qlt; simpl; lia).
  assert (Hq : (inject_Z (Z.of_nat m) / inject_Z (Z.of_nat n) <= 1)%Q).
  { apply Qle_shift_div_r; [exact Hpos |]. rewrite Qmult_1_l.
    rewrite <- Zle_Qle. lia. }
  destruct round64_exact_examples as (E1 & E100 & _).
  apply round64_mono in Hq. rewrite E1 in Hq.
  rewrite <- E100 at 2. apply round64_mono. lra.
Qed.

Lemma percent_mono m m' n :
  (m' <= m)%nat ->
  (round64 (round64 (inject_Z (Z.of_nat m') / inject_Z (Z.of_nat n)) * 100)
   <= round64 (round64 (inject_Z (Z.of_nat m) / inject_Z (Z.of_nat n)) * 100))%Q.
Proof.
  intros Hle. apply round64_mono. apply Qmult_le_compat_r; [| discriminate].
  apply round64_mono. apply quotient_mono. exact Hle.
Qed.

Lemma percent_nonneg m n :
  (0 <= round64 (round64 (inject_Z (Z.of_nat m) / inject_Z (Z.of_nat n)) * 100))%Q.
Proof.
  apply round64_nonneg. apply Qmult_le_0_compat; [| discriminate].
  apply round64_nonneg. apply quotient_nonneg.
Qed.

Lemma filter_has {A} (f : A -> bool) l a :
  In a l -> f a = true -> (1 <= length (List.filter f l))%nat.
Proof.
  intros Hin Hf. assert (H : In a (List.filter f l)) by (apply filter_In; auto).
  destruct (List.filter f l); [destruct H | simpl; lia].
Qed.

Lemma join_rows_lower nl nr keys :
  (forall i, (i < nl)%nat ->
             (1 <= length (List.filter (fun j => rows_match keys i j) (seq 0 nr)))%nat) ->
  (nl <= length (join_rows nl nr keys))%nat.
Proof.
  intros Hb. unfold join_rows.
  assert (H : forall l, (forall i, In i l -> (i < nl)%nat) ->
                        (length l <= length (flat_map (fun i => map (pair i)
                           (List.filter (fun j => rows_match keys i j) (seq 0 nr))) l))%nat).
  { induction l as [|i others IH]; intros Hl; simpl; [lia |].
    rewrite length_app, length_map.
    specialize (Hb i (Hl i (or_introl eq_refl))).
    specialize (IH (fun k Hk => Hl k (or_intror Hk))). lia. }
  specialize (H (seq 0 nl) (fun i Hi => proj2 (proj1 (in_seq _ _ _) Hi))).
  rewrite length_seq in H. exact H.
Qed.

Lemma percent_ge_100 m n :
  (n <= m)%nat -> (0 < n)%nat ->
  (100 <= round64 (round64 (inject_Z (Z.of_nat m) / inject_Z (Z.of_nat n)) * 100))%Q.
Proof.
  intros Hle Hn.
  assert (Hpos : (0 < inject_Z (Z.of_nat n))%Q) by (unfold Qlt; simpl; lia).
  assert (Hq : (1 <= inject_Z (Z.of_nat m) / inject_Z (Z.of_nat n))%Q).
  { apply Qle_shift_div_l; [exact Hpos |]. rewrite Qmult_1_l.
    rewrite <- Zle_Qle. lia. }
  destruct round64_exact_examples as (E1 & E100 & _).
  apply round64_mono in Hq. rewrite E1 in Hq.
  rewrite <- E100 at 1. apply round64_mono. lra.
Qed.

(** More columns to agree on, fewer pairs that do. *)
Lemma risk_outcome_incl micro ids quasi_columns quasi_columns' m r m' r' :
  incl quasi_columns quasi_columns' ->
  risk_outcome micro ids quasi_columns = inr (m, r) ->
  risk_outcome micro ids quasi_columns' = inr (m', r') ->
  (m' <= m)%nat /\ (r' <= r)%Q.
Proof.
  intros Hincl Hrun Hrun'.
  apply risk_outcome_inr in Hrun as (keys & Hk & _ & _ & _ & _ & _ & -> & ->).
  apply risk_outcome_inr in Hrun' as (keys' & Hk' & _ & _ & _ & _ & _ & -> & ->).
  assert (Hle : (length (join_rows (len micro) (len ids) keys')
                 <= length (join_rows (len micro) (len ids) keys))%nat).
  { apply join_rows_length_le. intros i j. rewrite !rows_match_true.
    intros H c lk rk Hc. apply (H c lk rk).
    apply (merge_keys_In_iff _ _ _ _ c lk rk Hk) in Hc as (Hc & Hl & Hr).
    apply (merge_keys_In_iff _ _ _ _ c lk rk Hk'). auto. }
  split; [exact Hle |].
  destruct (Nat.ltb 0 (len micro)); [apply percent_mono; exact Hle | apply Qle_refl].
Qed.

(** The labels of the result depend on which columns are keys, not on the
    order they are listed in. *)
Lemma items_overlap_same_members left right on on' :
  (forall c, In c on <-> In c on') ->
  items_overlap_with_suffix left right on' = items_overlap_with_suffix left right on.
Proof.
  intros Hsame. unfold items_overlap_with_suffix.
  assert (Hf : forall l, List.filter (fun c => negb (bool_decide (c ∈ on'))) l
                         = List.filter (fun c => negb (bool_decide (c ∈ on))) l).
  { intros l. apply List.filter_ext. intros c. f_equal. apply bool_decide_ext.
    rewrite !list_elem_of_In. symmetry. apply Hsame. }
  rewrite !Hf. reflexivity.
Qed.

(** The labels of the result depend on the names of the columns and on
    whether the left frame has rows. *)
Lemma items_overlap_ext d d' ids on :
  len d' = len d -> column_names d' = column_names d ->
  items_overlap_with_suffix d' ids on = items_overlap_with_suffix d ids on.
Proof.
  intros Hlen Hnames. unfold items_overlap_with_suffix. rewrite Hlen, Hnames.
  reflexivity.
Qed.

Section RiskFurther.
Context `{G : Generator}.

(** X8. A score that is returned counts at most every pair of a microdata
    row and a reference row, and its percentage is not negative. *)
Theorem calculate_risk_bounds (st : state) microdata true_ids micro ids
    quasi_columns match_count risk_percent :
  heap st !! microdata = Some micro ->
  heap st !! true_ids = Some ids ->
  fst (calculate_risk microdata true_ids quasi_columns st)
  = inr (match_count, risk_percent) ->
  (match_count <= len micro * len ids)%nat /\ (0 <= risk_percent)%Q.
Proof.
  intros Hm Hi Hrun.
  rewrite (calculate_risk_run st _ _ micro ids) in Hrun by assumption.
  apply risk_outcome_inr in Hrun as (keys & _ & _ & _ & _ & _ & _ & -> & ->).
  split.
  - apply join_rows_bound. intros i.
    etransitivity; [apply filter_length_le_length | rewrite length_seq; lia].
  - destruct (Nat.ltb 0 (len micro)); [apply percent_nonneg | discriminate].
Qed.

(** X9. When no two reference rows agree on all the selected
    quasi-identifiers, their values compared the way the join compares them
    (an integer column joined with a float column is compared as floats), a
    score that is returned matches each microdata row at most once:
    [match_count] is at most the number of microdata rows and the risk at
    most 100 percent. *)
Theorem calculate_risk_at_most_100 (st : state) microdata true_ids micro ids
    quasi_columns match_count risk_percent :
  heap st !! microdata = Some micro ->
  heap st !! true_ids = Some ids ->
  distinct_on micro ids quasi_columns ->
  fst (calculate_risk microdata true_ids quasi_columns st)
  = inr (match_count, risk_percent) ->
  (match_count <= len micro)%nat /\ (risk_percent <= 100)%Q.
Proof.
  intros Hm Hi Hdist Hrun.
  rewrite (calculate_risk_run st _ _ micro ids) in Hrun by assumption.
  apply risk_outcome_inr in Hrun as (keys & Hk & _ & _ & _ & _ & _ & -> & ->).
  assert (Hle : (length (join_rows (len micro) (len ids) keys) <= len micro)%nat).
  { rewrite <- (Nat.mul_1_r (len micro)) at 2. apply join_rows_bound. intros i.
    apply filter_at_most_one; [apply seq_NoDup |].
    intros j j' Hj Hj' Hmj Hmj'. apply in_seq in Hj, Hj'.
    destruct (Nat.eq_dec j j') as [|Hne]; [assumption | exfalso].
    destruct (Hdist j j' ltac:(lia) ltac:(lia) Hne)
      as (c & lk & rk & Hin & Hlk & Hrk & Hdiff).
    pose proof (proj2 (merge_keys_In_iff _ _ _ _ c lk rk Hk) (conj Hin (conj Hlk Hrk)))
      as Hkey.
    pose proof (proj1 (rows_match_true keys i j) Hmj _ _ _ Hkey) as H1.
    pose proof (proj1 (rows_match_true keys i j') Hmj' _ _ _ Hkey) as H2.
    rewrite (cell_eqb_trans _ _ _ (cell_eqb_sym _ _ H1) H2) in Hdiff. discriminate. }
  split; [exact Hle |].
  destruct (Nat.ltb 0 (len micro)) eqn:En; [| discriminate].
  apply percent_le_100; [exact Hle | apply Nat.ltb_lt; exact En].
Qed.

(** X10. The score depends on which quasi-identifiers are selected, not on
    their order or on repetitions: two lists with the same members that one
    of them returns a score for give the same score. *)
Theorem calculate_risk_same_members (st : state) microdata true_ids micro ids
    quasi_columns quasi_columns' score :
  heap st !! microdata = Some micro ->
  heap st !! true_ids = Some ids ->
  (forall c, In c quasi_columns <-> In c quasi_columns') ->
  fst (calculate_risk microdata true_ids quasi_columns st) = inr score ->
  fst (calculate_risk microdata true_ids quasi_columns' st) = inr score.
Proof.
  intros Hm Hi Hsame Hrun. destruct score as [m r].
  rewrite (calculate_risk_run st _ _ micro ids) in Hrun |- * by assumption.
  cbn [fst] in *.
  apply risk_outcome_inr in Hrun as (keys & Hk & Hne & Hco & Hs & Hcm & Hci & -> & ->).
  assert (Hcm' : Forall (fun c => has_column c micro = true) quasi_columns').
  { rewrite List.Forall_forall in Hcm |- *. intros c Hc. apply Hcm, Hsame, Hc. }
  assert (Hci' : Forall (fun c => has_column c ids = true) quasi_columns').
  { rewrite List.Forall_forall in Hci |- *. intros c Hc. apply Hci, Hsame, Hc. }
  destruct (merge_keys_present _ _ _ Hcm' Hci') as (keys' & Hk' & Hlen' & _).
  assert (Hin : forall c lk rk, In (c, lk, rk) keys' <-> In (c, lk, rk) keys).
  { intros c lk rk. rewrite (merge_keys_In_iff _ _ _ _ c lk rk Hk),
      (merge_keys_In_iff _ _ _ _ c lk rk Hk'), Hsame. reflexivity. }
  assert (Hrows : forall i j, rows_match keys' i j = rows_match keys i j).
  { intros i j. apply eq_true_iff_eq. rewrite !rows_match_true.
    split; intros H c lk rk Hc; apply (H c lk rk); apply Hin; exact Hc. }
  rewrite (risk_outcome_of_keys micro ids quasi_columns' keys' Hcm' Hci' Hk').
  - rewrite (join_rows_ext _ _ keys keys' Hrows). reflexivity.
  - destruct keys as [|[[c lk] rk] rest]; [contradiction |].
    intros ->. apply (Hin c lk rk). left. reflexivity.
  - apply coerce_merge_keys_None. intros c lk rk Hc.
    apply (proj1 (coerce_merge_keys_None keys) Hco c). apply Hin. exact Hc.
  - rewrite (items_overlap_same_members micro ids quasi_columns quasi_columns' Hsame).
    exact Hs.
Qed.

(** X11. Selecting more quasi-identifiers never finds more matches: when the
    score is returned for a list and for a list that contains it, the longer
    list has the smaller or equal [match_count] and risk. *)
Theorem calculate_risk_more_columns (st : state) microdata true_ids micro ids
    quasi_columns quasi_columns' match_count risk_percent match_count' risk_percent' :
  heap st !! microdata = Some micro ->
  heap st !! true_ids = Some ids ->
  incl quasi_columns quasi_columns' ->
  fst (calculate_risk microdata true_ids quasi_columns st)
  = inr (match_count, risk_percent) ->
  fst (calculate_risk microdata true_ids quasi_columns' st)
  = inr (match_count', risk_percent') ->
  (match_count' <= match_count)%nat /\ (risk_percent' <= risk_percent)%Q.
Proof.
  intros Hm Hi Hincl Hrun Hrun'.
  rewrite (calculate_risk_run st _ _ micro ids) in Hrun, Hrun' by assumption.
  cbn [fst] in *.
  exact (risk_outcome_incl micro ids _ _ _ _ _ _ Hincl Hrun Hrun').
Qed.

(** X12. Scored against itself on a non-empty list of its own columns for
    which the suffixes of the join make no two column labels equal, a table
    matches every row at least with itself, rows with missing values
    included: [match_count] is at least the number of rows and the risk of a
    table with rows at least 100 percent. *)
Theorem calculate_risk_self (st : state) microdata true_ids d quasi_columns :
  heap st !! microdata = Some d ->
  heap st !! true_ids = Some d ->
  quasi_columns <> [] ->
  Forall (fun c => has_column c d = true) quasi_columns ->
  items_overlap_with_suffix d d quasi_columns = [] ->
  exists match_count risk_percent,
    calculate_risk microdata true_ids quasi_columns st
    = (inr (match_count, risk_percent), st)
    /\ (len d <= match_count)%nat
    /\ if Nat.eqb (len d) 0 then risk_percent = 0%Q else (100 <= risk_percent)%Q.
Proof.
  intros Hm Hi Hne Hcols Hsuffix.
  rewrite (calculate_risk_run st _ _ d d) by assumption.
  destruct (merge_keys_present _ _ _ Hcols Hcols) as (keys & Hk & Hlen & _).
  assert (Hsame : forall c lk rk, In (c, lk, rk) keys -> lk = rk).
  { intros c lk rk Hc. apply (merge_keys_In_iff _ _ _ _ c lk rk Hk) in Hc.
    destruct Hc as (_ & Hl & Hr). congruence. }
  rewrite (risk_outcome_of_keys d d quasi_columns keys Hcols Hcols Hk).
  - assert (Hlow : (len d <= length (join_rows (len d) (len d) keys))%nat).
    { apply join_rows_lower. intros i Hi'.
      apply (filter_has _ _ i); [apply in_seq; lia |].
      apply rows_match_true. intros c lk rk Hc.
      rewrite (Hsame c lk rk Hc). apply cell_eqb_refl. }
    eexists _, _. split; [reflexivity |]. split; [exact Hlow |].
    destruct (len d) as [|n] eqn:En; [reflexivity |].
    replace (Nat.ltb 0 (S n)) with true by reflexivity. cbn [Nat.eqb].
    apply percent_ge_100; [exact Hlow | lia].
  - destruct keys; [| discriminate]. destruct quasi_columns; [contradiction | discriminate].
  - apply coerce_merge_keys_None. intros c lk rk Hc.
    rewrite (Hsame c lk rk Hc). apply keys_coercible_refl.
  - exact Hsuffix.
Qed.

End RiskFurther.

(** ** The script around the helpers *)

Lemma has_column_getitem_eq d d' c :
  getitem d' c = getitem d c -> has_column c d' = has_column c d.
Proof.
  intros H. destruct (has_column c d) eqn:E.
  - apply has_column_true in E as [s Hs]. apply has_column_true. exists s. congruence.
  - apply has_column_false in E. apply has_column_false. congruence.
Qed.

Lemma merge_keys_ext d d' ids quasi_columns :
  (forall c, In c quasi_columns -> getitem d' c = getitem d c) ->
  merge_keys d' ids quasi_columns = merge_keys d ids quasi_columns.
Proof.
  induction quasi_columns as [|c rest IH]; intros H; simpl; [reflexivity |].
  rewrite (H c (or_introl eq_refl)), IH; [reflexivity |].
  intros c' Hc'. apply H. right. exact Hc'.
Qed.

(** The score looks at the selected columns of the microdata, at the number
    of its rows and at the names of its columns, and at nothing else of
    it. *)
Lemma risk_outcome_ext d d' ids quasi_columns :
  len d' = len d ->
  column_names d' = column_names d ->
  (forall c, In c quasi_columns -> getitem d' c = getitem d c) ->
  risk_outcome d' ids quasi_columns = risk_outcome d ids quasi_columns.
Proof.
  intros Hlen Hnames Hcols. unfold risk_outcome, merge.
  assert (Hmiss : missing_in d' quasi_columns = missing_in d quasi_columns).
  { unfold missing_in. apply List.filter_ext_in. intros c Hc.
    rewrite (has_column_getitem_eq d d' c (Hcols c Hc)). reflexivity. }
  rewrite Hmiss, (merge_keys_ext d d' ids quasi_columns Hcols),
    (items_overlap_ext d d' ids quasi_columns Hlen Hnames), Hlen.
  reflexivity.
Qed.

Lemma numeric_cols_getitem d c :
  List.NoDup (column_names d) ->
  In c (numeric_cols d) ->
  exists col, getitem d c = Some col /\ is_numeric_dtype col = true.
Proof.
  unfold column_names, numeric_cols, getitem.
  induction (columns d) as [|[n s] rest IH]; simpl; intros Hnd Hin; [destruct Hin |].
  inversion Hnd as [|? ? Hnotin Hnd']; subst.
  destruct (String.eqb_spec c n) as [->|Hne].
  - destruct (is_numeric_dtype s) eqn:Es; [eauto |].
    exfalso. apply Hnotin. apply in_map_iff in Hin as ([n' s'] & <- & Hin).
    apply filter_In in Hin as [Hin _]. apply in_map_iff. exists (n', s'). auto.
  - apply IH; [exact Hnd' |].
    destruct (is_numeric_dtype s); [destruct Hin as [Heq | Hin] |]; try assumption.
    simpl in Heq. congruence.
Qed.

Lemma well_formed_getitem d c col :
  well_formed d -> getitem d c = Some col -> series_len col = len d.
Proof.
  unfold well_formed, getitem, len. generalize (index_len d) as n. intros n.
  induction (columns d) as [|[m s] rest IH]; simpl; intros Hwf Hget; [discriminate |].
  apply List.Forall_cons_iff in Hwf as [Hs Hwf'].
  destruct (String.eqb c m); [injection Hget as <-; exact Hs | auto].
Qed.

Lemma generalised_frame_other d column c :
  c <> column -> getitem (generalised_frame d column) c = getitem d c.
Proof.
  intros Hne. unfold generalised_frame.
  destruct (getitem d column) as [col|]; [| reflexivity].
  destruct (pd_cut col bins labels); [reflexivity | apply getitem_setitem_ne; exact Hne].
Qed.

Lemma generalised_frame_len d column : len (generalised_frame d column) = len d.
Proof.
  unfold generalised_frame. destruct (getitem d column) as [col|]; [| reflexivity].
  destruct (pd_cut col bins labels); reflexivity.
Qed.

Lemma generalised_frame_names d column :
  column_names (generalised_frame d column) = column_names d.
Proof.
  unfold generalised_frame. destruct (getitem d column) as [col|] eqn:E; [| reflexivity].
  destruct (pd_cut col bins labels); [reflexivity |].
  eapply column_names_setitem. exact E.
Qed.

Section Script.
Context `{G : Generator}.

(** A run of lines 106 to 108 that returns. *)
Lemma anonymise_returned (st : state) micro_df d num_col noise_scale random_seed
    anon_df st' :
  heap st !! micro_df = Some d ->
  anonymise micro_df num_col noise_scale random_seed st = (inr anon_df, st') ->
  exists col zs,
    getitem d num_col = Some col
    /\ is_numeric_dtype col = true
    /\ heap st ⊆ heap st'
    /\ heap st' !! anon_df
       = Some (if has_column "age" d
               then generalised_frame (setitem d num_col (Int64 zs)) "age"
               else setitem d num_col (Int64 zs)).
Proof.
  intros Hd Hrun. unfold anonymise in Hrun. unfold bind at 1 in Hrun.
  destruct (add_laplace_noise micro_df num_col noise_scale (Some random_seed) st)
    as [[e|l1] st1] eqn:E1; [discriminate |].
  destruct (add_laplace_noise_returned st micro_df d num_col noise_scale
              (Some random_seed) l1 st1 Hd E1)
    as (g & col & _ & Hcol & Hnum & _ & _ & Hl1 & ->).
  set (d1 := setitem d num_col (Int64 _)) in *.
  assert (Hd1 : forall g', heap (mkState (<[l1 := d1]> (heap st)) g') !! l1 = Some d1)
    by (intros g'; apply lookup_insert_eq).
  assert (Hsub1 : heap st ⊆ <[l1 := d1]> (heap st)).
  { apply insert_subseteq. subst l1. apply fresh_unbound. }
  unfold bind at 1 in Hrun. rewrite (deref_bound _ l1 d1 (Hd1 _)) in Hrun.
  assert (Hage : has_column "age" d1 = has_column "age" d).
  { unfold has_column. subst d1.
    rewrite (column_names_setitem d num_col _ col Hcol). reflexivity. }
  rewrite Hage in Hrun. exists col, (rounded_sums (float_values col)
                                     (fst (laplace_draws noise_scale (len d) g))).
  fold d1. split; [exact Hcol |]. split; [exact Hnum |].
  destruct (has_column "age" d).
  - rewrite (generalise_age_run _ l1 d1 "age" (Hd1 _)) in Hrun.
    pose proof (fresh_unbound
                  (mkState (<[l1:=d1]> (heap st))
                           (snd (laplace_draws noise_scale (len d) g)))) as Hf.
    cbn [heap np_random] in Hrun, Hf.
    injection Hrun as <- <-. cbn [heap]. split; [| apply lookup_insert_eq].
    etransitivity; [exact Hsub1 |]. apply insert_subseteq. exact Hf.
  - unfold ret in Hrun. injection Hrun as <- <-. cbn [heap].
    split; [exact Hsub1 | apply lookup_insert_eq].
Qed.

(** The frame lines 106 to 108 return scores like the microdata on columns
    that are neither the noised one nor age. *)
Lemma anonymise_risk_outcome (st : state) micro_df true_df d ids num_col
    noise_scale random_seed anon_df st' :
  heap st !! micro_df = Some d ->
  heap st !! true_df = Some ids ->
  anonymise micro_df num_col noise_scale random_seed st = (inr anon_df, st') ->
  exists d',
    heap st' !! anon_df = Some d'
    /\ heap st' !! true_df = Some ids
    /\ forall quasi_columns,
         ~ In num_col quasi_columns -> ~ In "age" quasi_columns ->
         risk_outcome d' ids quasi_columns = risk_outcome d ids quasi_columns.
Proof.
  intros Hd Hi Hrun.
  destruct (anonymise_returned st micro_df d num_col noise_scale random_seed
              anon_df st' Hd Hrun) as (col & zs & Hcol & _ & Hsub & Hanon).
  eexists. split; [exact Hanon |].
  split; [exact (lookup_weaken _ _ _ _ Hi Hsub) |].
  intros quasi_columns Hnum Hage. apply risk_outcome_ext.
  - destruct (has_column "age" d); [rewrite generalised_frame_len |]; reflexivity.
  - destruct (has_column "age" d); [rewrite generalised_frame_names |];
      exact (column_names_setitem d num_col _ col Hcol).
  - intros c Hc.
    assert (Hc1 : c <> "age") by (intros ->; contradiction).
    assert (Hc2 : c <> num_col) by (intros ->; contradiction).
    destruct (has_column "age" d).
    + rewrite generalised_frame_other by exact Hc1.
      apply getitem_setitem_ne. exact Hc2.
    + apply getitem_setitem_ne. exact Hc2.
Qed.

Lemma new_quasi_no_age quasi_cols : ~ In "age" (new_quasi quasi_cols).
Proof.
  unfold new_quasi. intros H. apply filter_In in H as [_ H]. discriminate.
Qed.

Lemma new_quasi_incl quasi_cols : incl (new_quasi quasi_cols) quasi_cols.
Proof. unfold new_quasi. intros c H. apply filter_In in H as [H _]. exact H. Qed.

End Script.

Lemma In_firstn {A} n (l : list A) x : In x (firstn n l) -> In x l.
Proof.
  revert l. induction n as [|n IH]; intros [|a l]; simpl; try tauto.
  intros [->|H]; [left; reflexivity | right; apply IH; exact H].
Qed.

Lemma NoDup_firstn {A} n (l : list A) : List.NoDup l -> List.NoDup (firstn n l).
Proof.
  revert l. induction n as [|n IH]; intros [|a l] Hnd; simpl; try constructor.
  - inversion Hnd; subst. intros Hin. apply In_firstn in Hin. contradiction.
  - inversion Hnd; subst. apply IH. assumption.
Qed.

Lemma age_band_label x label : age_band x = Some label -> In label labels.
Proof.
  unfold age_band, labels.
  repeat match goal with
         | |- context [if ?b then _ else _] => destruct b
         end; intros [= <-]; simpl; tauto.
Qed.

(** X13. The preselected quasi-identifiers are at most three names out of
    [common_cols], without repetition when [common_cols] has none, and the
    preselection is empty only when [common_cols] is. *)
Theorem default_quasi_selectable (common_cols : list string) :
  incl (default_quasi common_cols) common_cols
  /\ (length (default_quasi common_cols) <= 3)%nat
  /\ (default_quasi common_cols = [] <-> common_cols = [])
  /\ (List.NoDup common_cols -> List.NoDup (default_quasi common_cols)).
Proof.
  unfold default_quasi. simpl.
  destruct (bool_decide ("age" ∈ common_cols)) eqn:Ea;
    destruct (bool_decide ("gender" ∈ common_cols)) eqn:Eg;
    destruct (bool_decide ("district" ∈ common_cols)) eqn:Ed;
    try apply bool_decide_eq_true in Ea; try apply bool_decide_eq_true in Eg;
    try apply bool_decide_eq_true in Ed;
    try apply list_elem_of_In in Ea; try apply list_elem_of_In in Eg;
    try apply list_elem_of_In in Ed.
  8: { split; [| split; [| split; [split |]]].
       - intros c Hc. eapply In_firstn. exact Hc.
       - apply firstn_le_length.
       - destruct common_cols; [reflexivity | discriminate].
       - intros ->. reflexivity.
       - apply NoDup_firstn. }
  all: (split; [| split; [| split; [split |]]]);
    [ intros c Hc; simpl in Hc; intuition (subst; assumption)
    | simpl; lia
    | discriminate
    | intros ->; match goal with H : In _ [] |- _ => destruct H end
    | intros _; repeat constructor; simpl; intuition discriminate ].
Qed.

Section ScriptFurther.
Context `{G : Generator}.

(** X14. Quasi-identifiers picked among [common_cols] never trigger the
    column check of [calculate_risk]: whatever the score raises for them, it
    is not a [KeyError]. *)
Theorem selection_never_KeyError (st : state) micro_df true_df micro ids
    common_cols quasi_cols :
  heap st !! micro_df = Some micro ->
  heap st !! true_df = Some ids ->
  is_common_cols micro ids common_cols ->
  incl quasi_cols common_cols ->
  match fst (calculate_risk micro_df true_df quasi_cols st) with
  | inl e => is_KeyError e = false
  | inr _ => True
  end.
Proof.
  intros Hm Hi [_ Hcommon] Hincl.
  rewrite (calculate_risk_run st _ _ micro ids) by assumption. cbn [fst].
  assert (Hcm : Forall (fun c => has_column c micro = true) quasi_cols).
  { apply List.Forall_forall. intros c Hc. apply Hcommon, Hincl, Hc. }
  assert (Hci : Forall (fun c => has_column c ids = true) quasi_cols).
  { apply List.Forall_forall. intros c Hc. apply Hcommon, Hincl, Hc. }
  unfold risk_outcome.
  rewrite (proj2 (missing_in_nil _ _) Hcm), (proj2 (missing_in_nil _ _) Hci).
  destruct (merge micro ids quasi_cols) as [e|merged] eqn:E; [| exact I].
  exact (merge_not_KeyError _ _ _ _ Hcm Hci E).
Qed.

(** X15. The script offers for noise columns that the noise cannot be
    added to: for an offered column with a missing value, in a well-formed
    frame with distinct column names, and a seed and a scale within the
    ranges of the script's inputs, [add_laplace_noise] raises the error of
    the integer cast; it returns only for a column without a missing
    value. *)
Theorem numeric_cols_noise (st : state) micro_df d num_col noise_scale random_seed :
  heap st !! micro_df = Some d ->
  well_formed d ->
  List.NoDup (column_names d) ->
  In num_col (numeric_cols d) ->
  0 <= random_seed <= 9999999 ->
  (100 <= noise_scale /\ noise_scale <= 5000)%Q ->
  exists col,
    getitem d num_col = Some col
    /\ is_numeric_dtype col = true
    /\ (complete col = false ->
        fst (add_laplace_noise micro_df num_col noise_scale (Some random_seed) st)
        = inl IntCastingNaNError)
    /\ (forall l,
          fst (add_laplace_noise micro_df num_col noise_scale (Some random_seed) st)
          = inr l ->
          complete col = true).
Proof.
  intros Hd Hwf Hnd Hin Hseed [Hlo Hhi].
  destruct (numeric_cols_getitem d num_col Hnd Hin) as (col & Hcol & Hnum).
  exists col. split; [exact Hcol |]. split; [exact Hnum |].
  rewrite (add_laplace_noise_run st micro_df d) by exact Hd. cbv zeta.
  unfold after_seed.
  replace ((random_seed <? 0) || (4294967295 <? random_seed)) with false
    by (symmetry; apply orb_false_iff; split; apply Z.ltb_ge; lia).
  assert (Hscale : Qcompare noise_scale 0 = Gt).
  { apply Qgt_alt. lra. }
  rewrite Hscale.
  rewrite (noised_frame_numeric d num_col col _ Hcol Hnum)
    by (rewrite laplace_draws_length; eapply well_formed_getitem; eassumption).
  destruct (complete col); split; try discriminate; reflexivity.
Qed.

(** X16. The score after enhancement is the score of the microdata as it was
    before, on the selection without age, unless the noised column is itself
    a selected quasi-identifier other than age: the columns it joins on are
    the ones lines 106 to 108 leave alone. *)
Theorem rescore_is_baseline (st : state) micro_df true_df d ids num_col noise_scale
    random_seed anon_df st' quasi_cols :
  heap st !! micro_df = Some d ->
  heap st !! true_df = Some ids ->
  anonymise micro_df num_col noise_scale random_seed st = (inr anon_df, st') ->
  ~ In num_col (new_quasi quasi_cols) ->
  calculate_risk anon_df true_df (new_quasi quasi_cols) st'
  = (risk_outcome d ids (new_quasi quasi_cols), st').
Proof.
  intros Hd Hi Hrun Hnum.
  destruct (anonymise_risk_outcome st micro_df true_df d ids num_col noise_scale
              random_seed anon_df st' Hd Hi Hrun) as (d' & Hanon & Hi' & Hsame).
  rewrite (calculate_risk_run st' anon_df true_df d' ids _ Hanon Hi').
  f_equal. apply Hsame; [exact Hnum | apply new_quasi_no_age].
Qed.

(** X21. When the noised column is not a selected quasi-identifier other
    than age, the enhancement does not lower the reported risk: the score
    after it, when both scores are returned, has at least the [match_count]
    and the risk of the score before it. *)
Theorem rescore_not_lower (st : state) micro_df true_df d ids num_col noise_scale
    random_seed anon_df st' quasi_cols match_count risk_percent
    match_count' risk_percent' :
  heap st !! micro_df = Some d ->
  heap st !! true_df = Some ids ->
  anonymise micro_df num_col noise_scale random_seed st = (inr anon_df, st') ->
  ~ In num_col (new_quasi quasi_cols) ->
  fst (calculate_risk micro_df true_df quasi_cols st)
  = inr (match_count, risk_percent) ->
  fst (calculate_risk anon_df true_df (new_quasi quasi_cols) st')
  = inr (match_count', risk_percent') ->
  (match_count <= match_count')%nat /\ (risk_percent <= risk_percent')%Q.
Proof.
  intros Hd Hi Hrun Hnum Hbefore Hafter.
  destruct (anonymise_risk_outcome st micro_df true_df d ids num_col noise_scale
              random_seed anon_df st' Hd Hi Hrun) as (d' & Hanon & Hi' & Hsame).
  rewrite (calculate_risk_run st micro_df true_df d ids _ Hd Hi) in Hbefore.
  rewrite (calculate_risk_run st' anon_df true_df d' ids _ Hanon Hi') in Hafter.
  cbn [fst] in Hbefore, Hafter.
  rewrite (Hsame _ Hnum (new_quasi_no_age quasi_cols)) in Hafter.
  exact (risk_outcome_incl d ids _ _ _ _ _ _ (new_quasi_incl quasi_cols)
           Hafter Hbefore).
Qed.

(** X17. When age is the only quasi-identifier selected, the score after
    enhancement raises: line 118 leaves no column to join on. *)
Theorem rescore_only_age (st : state) micro_df true_df d ids num_col noise_scale
    random_seed anon_df st' quasi_cols :
  heap st !! micro_df = Some d ->
  heap st !! true_df = Some ids ->
  anonymise micro_df num_col noise_scale random_seed st = (inr anon_df, st') ->
  Forall (fun q => q = "age") quasi_cols ->
  calculate_risk anon_df true_df (new_quasi quasi_cols) st' = (inl IndexError, st').
Proof.
  intros Hd Hi Hrun Hage.
  assert (Hnil : new_quasi quasi_cols = []).
  { unfold new_quasi. apply filter_none. intros q Hq.
    rewrite List.Forall_forall in Hage. rewrite (Hage q Hq). reflexivity. }
  destruct (anonymise_returned st micro_df d num_col noise_scale random_seed
              anon_df st' Hd Hrun) as (col & zs & _ & _ & Hsub & Hanon).
  rewrite (calculate_risk_run st' anon_df true_df _ ids _ Hanon
             (lookup_weaken _ _ _ _ Hi Hsub)).
  rewrite Hnil. reflexivity.
Qed.

(** X18. When lines 106 to 108 return for a microdata table with a numeric
    age column, the frame they return holds no age as a number: its age
    column is categorical and each of its values is missing or one of the
    seven labels, whichever column the noise went to. *)
Theorem anonymise_bands_age (st : state) micro_df d age num_col noise_scale
    random_seed anon_df st' :
  heap st !! micro_df = Some d ->
  getitem d "age" = Some age ->
  is_numeric_dtype age = true ->
  anonymise micro_df num_col noise_scale random_seed st = (inr anon_df, st') ->
  exists d' bands,
    heap st' !! anon_df = Some d'
    /\ getitem d' "age" = Some (Categorical bands)
    /\ Forall (fun b => match b with
                        | Some label => In label labels
                        | None => True
                        end) bands.
Proof.
  intros Hd Hage Hnum Hrun.
  destruct (anonymise_returned st micro_df d num_col noise_scale random_seed
              anon_df st' Hd Hrun) as (col & zs & Hcol & _ & _ & Hanon).
  assert (Hhas : has_column "age" d = true) by (apply has_column_true; eauto).
  rewrite Hhas in Hanon.
  assert (Hage1 : exists age1, getitem (setitem d num_col (Int64 zs)) "age" = Some age1
                               /\ is_numeric_dtype age1 = true).
  { destruct (String.eqb_spec "age" num_col) as [<-|Hne].
    - exists (Int64 zs). split; [apply getitem_setitem_eq | reflexivity].
    - exists age. split; [rewrite getitem_setitem_ne by exact Hne; exact Hage | exact Hnum]. }
  destruct Hage1 as (age1 & Hage1 & Hnum1).
  unfold generalised_frame in Hanon.
  rewrite Hage1, (pd_cut_numeric age1 Hnum1) in Hanon.
  eexists _, _. split; [exact Hanon |]. split; [apply getitem_setitem_eq |].
  apply List.Forall_forall. intros b Hb.
  apply in_map_iff in Hb as ([x|] & <- & _); [| exact I].
  destruct (age_band x) as [label|] eqn:Eb; [| exact I].
  eapply age_band_label. exact Eb.
Qed.

End ScriptFurther.

(** ** Order of the bands and the table without rows *)

Lemma searchsorted_right_mono a x y :
  (x <= y)%Q -> (searchsorted_right a x <= searchsorted_right a y)%nat.
Proof.
  intros Hxy. induction a as [|b rest IH]; simpl; [lia |].
  destruct (Qle_bool (inject_Z b) x) eqn:Ex; [| lia].
  replace (Qle_bool (inject_Z b) y) with true; [lia |].
  symmetry. apply Qle_bool_iff. apply Qle_bool_iff in Ex.
  eapply Qle_trans; eassumption.
Qed.

(** X19. The bands keep the order of the ages: of two ages that both get a
    band, the smaller one gets the same label or one earlier in the list of
    labels. *)
Theorem cut_value_monotone (x y : Q) (a b : string) :
  (x <= y)%Q ->
  cut_value bins labels (Some x) = Some a ->
  cut_value bins labels (Some y) = Some b ->
  exists i j,
    nth_error labels i = Some a /\ nth_error labels j = Some b /\ (i <= j)%nat.
Proof.
  intros Hxy Ha Hb. unfold cut_value in Ha, Hb.
  pose proof (searchsorted_right_mono bins x y Hxy) as Hmono.
  destruct (Nat.eqb (searchsorted_right bins x) (length bins)
            || Nat.eqb (searchsorted_right bins x) 0); [discriminate |].
  destruct (Nat.eqb (searchsorted_right bins y) (length bins)
            || Nat.eqb (searchsorted_right bins y) 0); [discriminate |].
  exists (searchsorted_right bins x - 1)%nat, (searchsorted_right bins y - 1)%nat.
  repeat split; [exact Ha | exact Hb | lia].
Qed.

Section NoRows.
Context `{G : Generator}.

(** X20. On a table without rows [add_laplace_noise] with an accepted seed
    and a scale that is not negative returns for a numeric column: the
    column of the copy becomes an integer column without values, and no
    sample is drawn, the generator staying at the seeded state. *)
Theorem add_laplace_noise_no_rows (st : state) df d column col scale s :
  heap st !! df = Some d ->
  len d = 0%nat ->
  getitem d column = Some col ->
  is_numeric_dtype col = true ->
  series_len col = 0%nat ->
  0 <= s <= 4294967295 ->
  Qcompare scale 0 <> Lt ->
  add_laplace_noise df column scale (Some s) st
  = (inr (fresh (dom (heap st))),
     mkState (<[fresh (dom (heap st)) := setitem d column (Int64 [])]> (heap st))
             (seeded s)).
Proof.
  intros Hd Hlen Hcol Hnum Hslen Hs Hscale.
  rewrite (add_laplace_noise_run st df d) by exact Hd. cbv zeta.
  unfold after_seed.
  replace ((s <? 0) || (4294967295 <? s)) with false
    by (symmetry; apply orb_false_iff; split; apply Z.ltb_ge; lia).
  rewrite Hlen. cbn [laplace_draws fst snd].
  rewrite (noised_frame_numeric d column col [] Hcol Hnum Hslen).
  assert (Hvals : numeric_values col = []).
  { apply length_zero_iff_nil. rewrite numeric_values_length by exact Hnum. exact Hslen. }
  assert (Hfloats : float_values col = []).
  { apply length_zero_iff_nil. rewrite float_values_length by exact Hnum. exact Hslen. }
  unfold complete. rewrite Hvals, Hfloats. cbn [forallb rounded_sums].
  destruct (Qcompare scale 0); try contradiction; reflexivity.
Qed.

End NoRows.

(** ** Runs of the further properties on the sample tables *)

Lemma add_laplace_noise_shape_people :
  let st := process [people] in
  let st' := snd (add_laplace_noise 0%nat "income" 1000 (Some 42) st) in
  (heap st !! 0%nat = Some people
   /\ add_laplace_noise 0%nat "income" 1000 (Some 42) st = (inr 1%nat, st'))
  /\ exists d' zs,
       heap st' !! 1%nat = Some d'
       /\ column_names d' = column_names people
       /\ len d' = len people
       /\ getitem d' "income" = Some (Int64 zs)
       /\ length zs = len people
       /\ forall c, c <> "income" -> getitem d' c = getitem people c.
Proof.
  intros st st'.
  assert (H0 : heap st !! 0%nat = Some people) by reflexivity.
  assert (H1 : add_laplace_noise 0%nat "income" 1000 (Some 42) st = (inr 1%nat, st'))
    by reflexivity.
  split; [split; assumption |].
  exact (add_laplace_noise_shape st 0%nat people "income" 1000 (Some 42) 1%nat st' H0 H1).
Defined.

Lemma add_laplace_noise_nearest_people :
  let st := process [people] in
  let st' := snd (add_laplace_noise 0%nat "income" 1000 (Some 42) st) in
  let col := Float64 [Some (52000 # 1); Some (61000 # 1); Some (18500 # 1)] in
  (heap st !! 0%nat = Some people
   /\ getitem people "income" = Some col
   /\ after_seed (Some 42) (np_random st) = Some (seeded 42)
   /\ add_laplace_noise 0%nat "income" 1000 (Some 42) st = (inr 1%nat, st'))
  /\ exists d' zs,
       heap st' !! 1%nat = Some d'
       /\ getitem d' "income" = Some (Int64 zs)
       /\ forall i v n z,
            float_values col !! i = Some (Some v) ->
            fst (laplace_draws 1000 (len people) (seeded 42)) !! i = Some n ->
            zs !! i = Some z ->
            (inject_Z (- 2 ^ 63) <= round64 (v + n))%Q ->
            (round64 (v + n) <= inject_Z (2 ^ 63 - 1))%Q ->
            (Qabs (inject_Z z - round64 (v + n)) <= 1 # 2)%Q.
Proof.
  intros st st' col.
  assert (H0 : heap st !! 0%nat = Some people) by reflexivity.
  assert (H1 : getitem people "income" = Some col) by reflexivity.
  assert (H2 : after_seed (Some 42) (np_random st) = Some (seeded 42)) by reflexivity.
  assert (H3 : add_laplace_noise 0%nat "income" 1000 (Some 42) st = (inr 1%nat, st'))
    by reflexivity.
  split; [repeat split; assumption |].
  exact (add_laplace_noise_nearest st 0%nat people "income" col 1000 (Some 42)
           (seeded 42) 1%nat st' H0 H1 H2 H3).
Defined.

Lemma add_laplace_noise_generator_text :
  let st := process [people] in
  (heap st !! 0%nat = Some people
   /\ after_seed (Some 42) (np_random st) = Some (seeded 42)
   /\ Qcompare 1000 0 <> Lt)
  /\ fst (add_laplace_noise 0%nat "gender" 1000 (Some 42) st)
     = inl (ValueError_not_numeric "gender")
  /\ np_random (snd (add_laplace_noise 0%nat "gender" 1000 (Some 42) st))
     = snd (laplace_draws 1000 (len people) (seeded 42)).
Proof.
  intros st.
  assert (H0 : heap st !! 0%nat = Some people) by reflexivity.
  assert (H1 : after_seed (Some 42) (np_random st) = Some (seeded 42)) by reflexivity.
  assert (H2 : Qcompare 1000 0 <> Lt) by discriminate.
  split; [repeat split; assumption |]. split; [reflexivity |].
  exact (add_laplace_noise_generator st 0%nat people "gender" 1000 (Some 42)
           (seeded 42) H0 H1 H2).
Defined.

Lemma add_laplace_noise_bad_parameters_negative_seed :
  let st := process [people] in
  (heap st !! 0%nat = Some people
   /\ (after_seed (Some (-1)) (np_random st) = None \/ Qcompare 1000 0 = Lt))
  /\ fst (add_laplace_noise 0%nat "zip" 1000 (Some (-1)) st)
     = inl (match after_seed (Some (-1)) (np_random st) with
            | None => ValueError_seed
            | Some _ => ValueError_scale
            end)
  /\ np_random (snd (add_laplace_noise 0%nat "zip" 1000 (Some (-1)) st))
     = match after_seed (Some (-1)) (np_random st) with
       | None => np_random st
       | Some g => g
       end
  /\ heap (snd (add_laplace_noise 0%nat "zip" 1000 (Some (-1)) st))
     = <[fresh (dom (heap st)) := people]> (heap st).
Proof.
  intros st.
  assert (H0 : heap st !! 0%nat = Some people) by reflexivity.
  assert (H1 : after_seed (Some (-1)) (np_random st) = None \/ Qcompare 1000 0 = Lt)
    by (left; reflexivity).
  split; [split; assumption |].
  exact (add_laplace_noise_bad_parameters st 0%nat people "zip" 1000 (Some (-1)) H0 H1).
Defined.

Lemma add_laplace_noise_again_people :
  let st := process [people] in
  let st' := snd (add_laplace_noise 0%nat "income" 1000 (Some 42) st) in
  (heap st !! 0%nat = Some people
   /\ add_laplace_noise 0%nat "income" 1000 (Some 42) st = (inr 1%nat, st')
   /\ after_seed None (np_random st') = Some (np_random st')
   /\ Qcompare 500 0 <> Lt
   /\ (500 <= 5000)%Q)
  /\ exists l' st'', add_laplace_noise 1%nat "income" 500 None st' = (inr l', st'').
Proof.
  intros st st'.
  assert (H0 : heap st !! 0%nat = Some people) by reflexivity.
  assert (H1 : add_laplace_noise 0%nat "income" 1000 (Some 42) st = (inr 1%nat, st'))
    by reflexivity.
  assert (H2 : after_seed None (np_random st') = Some (np_random st')) by reflexivity.
  assert (H3 : Qcompare 500 0 <> Lt) by discriminate.
  assert (H4 : (500 <= 5000)%Q) by discriminate.
  split; [split; [exact H0 | split; [exact H1 | split; [exact H2 | split; [exact H3 | exact H4]]]] |].
  exact (add_laplace_noise_again st 0%nat people "income" 1000 (Some 42) 1%nat st'
           500 None (np_random st') H0 H1 H2 H3 H4).
Defined.

Lemma noise_after_generalise_people :
  let st := process [people] in
  (heap st !! 0%nat = Some people
   /\ getitem people "age" = Some (Int64 [25; 41; 70])
   /\ is_numeric_dtype (Int64 [25; 41; 70]) = true
   /\ after_seed (Some 42) (np_random st) = Some (seeded 42)
   /\ Qcompare 1000 0 <> Lt)
  /\ exists l st',
       generalise_age 0%nat "age" st = (inr l, st')
       /\ fst (add_laplace_noise l "age" 1000 (Some 42) st')
          = inl (ValueError_not_numeric "age").
Proof.
  intros st.
  assert (H0 : heap st !! 0%nat = Some people) by reflexivity.
  assert (H1 : getitem people "age" = Some (Int64 [25; 41; 70])) by reflexivity.
  assert (H2 : is_numeric_dtype (Int64 [25; 41; 70]) = true) by reflexivity.
  assert (H3 : after_seed (Some 42) (np_random st) = Some (seeded 42)) by reflexivity.
  assert (H4 : Qcompare 1000 0 <> Lt) by discriminate.
  split; [repeat split; assumption |].
  exact (noise_after_generalise st 0%nat people "age" _ 1000 (Some 42) (seeded 42)
           H0 H1 H2 H3 H4).
Defined.

Lemma generalise_age_shape_people :
  let st := process [people] in
  heap st !! 0%nat = Some people
  /\ exists l d',
       generalise_age 0%nat "age" st
       = (inr l, mkState (<[l := d']> (heap st)) (np_random st))
       /\ column_names d' = column_names people
       /\ len d' = len people
       /\ (series_len <$> getitem d' "age") = (series_len <$> getitem people "age")
       /\ forall c, c <> "age" -> getitem d' c = getitem people c.
Proof.
  intros st.
  assert (H0 : heap st !! 0%nat = Some people) by reflexivity.
  split; [exact H0 |].
  exact (generalise_age_shape st 0%nat people "age" H0).
Defined.

Lemma calculate_risk_bounds_people :
  let st := process [people; registry] in
  (heap st !! 0%nat = Some people
   /\ heap st !! 1%nat = Some registry
   /\ fst (calculate_risk 0%nat 1%nat ["gender"] st) = inr (3%nat, 100 # 1))
  /\ (3 <= len people * len registry)%nat /\ (0 <= 100 # 1)%Q.
Proof.
  intros st.
  assert (H0 : heap st !! 0%nat = Some people) by reflexivity.
  assert (H1 : heap st !! 1%nat = Some registry) by reflexivity.
  assert (H2 : fst (calculate_risk 0%nat 1%nat ["gender"] st) = inr (3%nat, 100 # 1))
    by reflexivity.
  split; [repeat split; assumption |].
  exact (calculate_risk_bounds st 0%nat 1%nat people registry ["gender"] 3%nat
           (100 # 1) H0 H1 H2).
Defined.

Lemma registry_distinct_on_age : distinct_on people registry ["age"; "gender"].
Proof.
  intros j j' Hj Hj' Hne. exists "age", (Int64 [25; 41; 70]), (Int64 [41; 25]).
  split; [left; reflexivity |]. split; [reflexivity |]. split; [reflexivity |].
  change (len registry) with 2%nat in Hj, Hj'.
  destruct j as [|[|j]], j' as [|[|j']]; try lia; reflexivity.
Defined.

(** The hypothesis of X9 is about the values as the join compares them: the
    integers 2^53 and 2^53 + 1 are two numbers and, joined with a float
    column, one float, so that one microdata row matches both. *)
Lemma integer_keys_joined_as_floats :
  getitem big_ints "id" = Some (Int64 [9007199254740992; 9007199254740993])
  /\ len big_float = 1%nat
  /\ fst (calculate_risk 0%nat 1%nat ["id"] (process [big_float; big_ints]))
     = inr (2%nat, 200%Q)
  /\ ~ distinct_on big_float big_ints ["id"].
Proof.
  split; [reflexivity |]. split; [reflexivity |]. split; [vm_compute; reflexivity |].
  intros H. destruct (H 0%nat 1%nat) as (c & lk & rk & Hc & Hlk & Hrk & Hdiff);
    [simpl; lia | simpl; lia | discriminate |].
  destruct Hc as [<- | []].
  injection Hlk as <-. injection Hrk as <-. vm_compute in Hdiff. discriminate.
Qed.

Lemma calculate_risk_at_most_100_people :
  let st := process [people; registry] in
  (heap st !! 0%nat = Some people
   /\ heap st !! 1%nat = Some registry
   /\ distinct_on people registry ["age"; "gender"]
   /\ fst (calculate_risk 0%nat 1%nat ["age"; "gender"] st) = inr (2%nat, 2345624805922133 # 35184372088832))
  /\ (2 <= len people)%nat /\ (2345624805922133 # 35184372088832 <= 100)%Q.
Proof.
  intros st.
  assert (H0 : heap st !! 0%nat = Some people) by reflexivity.
  assert (H1 : heap st !! 1%nat = Some registry) by reflexivity.
  assert (H2 : fst (calculate_risk 0%nat 1%nat ["age"; "gender"] st)
               = inr (2%nat, 2345624805922133 # 35184372088832)) by reflexivity.
  split; [repeat split; first [assumption | exact registry_distinct_on_age] |].
  exact (calculate_risk_at_most_100 st 0%nat 1%nat people registry ["age"; "gender"]
           2%nat (2345624805922133 # 35184372088832) H0 H1 registry_distinct_on_age H2).
Defined.

Lemma calculate_risk_same_members_people :
  let st := process [people; registry] in
  (heap st !! 0%nat = Some people
   /\ heap st !! 1%nat = Some registry
   /\ (forall c, In c ["age"; "gender"] <-> In c ["gender"; "age"; "gender"])
   /\ fst (calculate_risk 0%nat 1%nat ["age"; "gender"] st) = inr (2%nat, 2345624805922133 # 35184372088832))
  /\ fst (calculate_risk 0%nat 1%nat ["gender"; "age"; "gender"] st)
     = inr (2%nat, 2345624805922133 # 35184372088832).
Proof.
  intros st.
  assert (H0 : heap st !! 0%nat = Some people) by reflexivity.
  assert (H1 : heap st !! 1%nat = Some registry) by reflexivity.
  assert (H2 : forall c, In c ["age"; "gender"] <-> In c ["gender"; "age"; "gender"])
    by (intros c; simpl; tauto).
  assert (H3 : fst (calculate_risk 0%nat 1%nat ["age"; "gender"] st)
               = inr (2%nat, 2345624805922133 # 35184372088832)) by reflexivity.
  split; [repeat split; first [assumption | apply H2] |].
  exact (calculate_risk_same_members st 0%nat 1%nat people registry ["age"; "gender"]
           ["gender"; "age"; "gender"] (2%nat, 2345624805922133 # 35184372088832) H0 H1 H2 H3).
Defined.

Lemma calculate_risk_more_columns_people :
  let st := process [people; registry] in
  (heap st !! 0%nat = Some people
   /\ heap st !! 1%nat = Some registry
   /\ incl ["gender"] ["gender"; "age"]
   /\ fst (calculate_risk 0%nat 1%nat ["gender"] st) = inr (3%nat, 100 # 1)
   /\ fst (calculate_risk 0%nat 1%nat ["gender"; "age"] st) = inr (2%nat, 2345624805922133 # 35184372088832))
  /\ (2 <= 3)%nat /\ (2345624805922133 # 35184372088832 <= 100 # 1)%Q.
Proof.
  intros st.
  assert (H0 : heap st !! 0%nat = Some people) by reflexivity.
  assert (H1 : heap st !! 1%nat = Some registry) by reflexivity.
  assert (H2 : incl ["gender"] ["gender"; "age"])
    by (intros c Hc; simpl in *; tauto).
  assert (H3 : fst (calculate_risk 0%nat 1%nat ["gender"] st) = inr (3%nat, 100 # 1))
    by reflexivity.
  assert (H4 : fst (calculate_risk 0%nat 1%nat ["gender"; "age"] st)
               = inr (2%nat, 2345624805922133 # 35184372088832)) by reflexivity.
  split; [repeat split; assumption |].
  exact (calculate_risk_more_columns st 0%nat 1%nat people registry ["gender"]
           ["gender"; "age"] 3%nat (100 # 1) 2%nat (2345624805922133 # 35184372088832) H0 H1 H2 H3 H4).
Defined.

Lemma calculate_risk_self_blank :
  let st := process [with_blank] in
  (heap st !! 0%nat = Some with_blank
   /\ ["age"] <> []
   /\ Forall (fun c => has_column c with_blank = true) ["age"]
   /\ items_overlap_with_suffix with_blank with_blank ["age"] = [])
  /\ exists match_count risk_percent,
       calculate_risk 0%nat 0%nat ["age"] st = (inr (match_count, risk_percent), st)
       /\ (len with_blank <= match_count)%nat
       /\ if Nat.eqb (len with_blank) 0 then risk_percent = 0%Q
          else (100 <= risk_percent)%Q.
Proof.
  intros st.
  assert (H0 : heap st !! 0%nat = Some with_blank) by reflexivity.
  assert (H1 : ["age"] <> []) by discriminate.
  assert (H2 : Forall (fun c => has_column c with_blank = true) ["age"])
    by (repeat constructor).
  assert (H3 : items_overlap_with_suffix with_blank with_blank ["age"] = [])
    by reflexivity.
  split; [split; [exact H0 | split; [exact H1 | split; [exact H2 | exact H3]]] |].
  exact (calculate_risk_self st 0%nat 0%nat with_blank ["age"] H0 H0 H1 H2 H3).
Defined.

Lemma people_registry_common : is_common_cols people registry ["age"; "gender"].
Proof.
  split; [repeat constructor; simpl; intuition discriminate |].
  intros c. unfold has_column, column_names. simpl.
  rewrite !bool_decide_eq_true, !list_elem_of_In. simpl.
  split.
  - intros [<- | [<- | []]]; tauto.
  - intros [[<- | [<- | [<- | []]]] [H | [H | [H | []]]]]; try discriminate; tauto.
Defined.

Lemma selection_never_KeyError_people :
  let st := process [people; registry] in
  (heap st !! 0%nat = Some people
   /\ heap st !! 1%nat = Some registry
   /\ is_common_cols people registry ["age"; "gender"]
   /\ incl ["gender"] ["age"; "gender"])
  /\ match fst (calculate_risk 0%nat 1%nat ["gender"] st) with
     | inl e => is_KeyError e = false
     | inr _ => True
     end.
Proof.
  intros st.
  assert (H0 : heap st !! 0%nat = Some people) by reflexivity.
  assert (H1 : heap st !! 1%nat = Some registry) by reflexivity.
  assert (H2 : incl ["gender"] ["age"; "gender"]) by (intros c Hc; simpl in *; tauto).
  split; [split; [exact H0 | split; [exact H1 | split;
            [exact people_registry_common | exact H2]]] |].
  exact (selection_never_KeyError st 0%nat 1%nat people registry ["age"; "gender"]
           ["gender"] H0 H1 people_registry_common H2).
Defined.

Lemma numeric_cols_noise_blank :
  let st := process [with_blank] in
  (heap st !! 0%nat = Some with_blank
   /\ well_formed with_blank
   /\ List.NoDup (column_names with_blank)
   /\ In "income" (numeric_cols with_blank)
   /\ 0 <= 42 <= 9999999
   /\ (100 <= 1000 /\ 1000 <= 5000)%Q)
  /\ exists col,
       getitem with_blank "income" = Some col
       /\ is_numeric_dtype col = true
       /\ (complete col = false ->
           fst (add_laplace_noise 0%nat "income" 1000 (Some 42) st)
           = inl IntCastingNaNError)
       /\ (forall l,
             fst (add_laplace_noise 0%nat "income" 1000 (Some 42) st) = inr l ->
             complete col = true).
Proof.
  intros st.
  assert (H0 : heap st !! 0%nat = Some with_blank) by reflexivity.
  assert (H1 : well_formed with_blank) by (repeat constructor).
  assert (H2 : List.NoDup (column_names with_blank))
    by (repeat constructor; simpl; intuition discriminate).
  assert (H3 : In "income" (numeric_cols with_blank)) by (right; left; reflexivity).
  assert (H4 : 0 <= 42 <= 9999999) by lia.
  assert (H5 : (100 <= 1000 /\ 1000 <= 5000)%Q) by (split; discriminate).
  split; [split; [exact H0 | split; [exact H1 | split; [exact H2 | split;
            [exact H3 | split; [exact H4 | exact H5]]]]] |].
  exact (numeric_cols_noise st 0%nat with_blank "income" 1000 42 H0 H1 H2 H3 H4 H5).
Defined.

Lemma rescore_is_baseline_people :
  let st := process [people; registry] in
  let st' := snd (anonymise 0%nat "income" 1000 42 st) in
  (heap st !! 0%nat = Some people
   /\ heap st !! 1%nat = Some registry
   /\ anonymise 0%nat "income" 1000 42 st = (inr 3%nat, st')
   /\ ~ In "income" (new_quasi ["age"; "gender"]))
  /\ calculate_risk 3%nat 1%nat (new_quasi ["age"; "gender"]) st'
     = (risk_outcome people registry (new_quasi ["age"; "gender"]), st').
Proof.
  intros st st'.
  assert (H0 : heap st !! 0%nat = Some people) by reflexivity.
  assert (H1 : heap st !! 1%nat = Some registry) by reflexivity.
  assert (H2 : anonymise 0%nat "income" 1000 42 st = (inr 3%nat, st')) by reflexivity.
  assert (H3 : ~ In "income" (new_quasi ["age"; "gender"]))
    by (simpl; intuition discriminate).
  split; [repeat split; assumption |].
  exact (rescore_is_baseline st 0%nat 1%nat people registry "income" 1000 42 3%nat st'
           ["age"; "gender"] H0 H1 H2 H3).
Defined.

Lemma rescore_only_age_people :
  let st := process [people; registry] in
  let st' := snd (anonymise 0%nat "income" 1000 42 st) in
  (heap st !! 0%nat = Some people
   /\ heap st !! 1%nat = Some registry
   /\ anonymise 0%nat "income" 1000 42 st = (inr 3%nat, st')
   /\ Forall (fun q => q = "age") ["age"])
  /\ calculate_risk 3%nat 1%nat (new_quasi ["age"]) st' = (inl IndexError, st').
Proof.
  intros st st'.
  assert (H0 : heap st !! 0%nat = Some people) by reflexivity.
  assert (H1 : heap st !! 1%nat = Some registry) by reflexivity.
  assert (H2 : anonymise 0%nat "income" 1000 42 st = (inr 3%nat, st')) by reflexivity.
  assert (H3 : Forall (fun q => q = "age") ["age"]) by (repeat constructor).
  split; [split; [exact H0 | split; [exact H1 | split; [exact H2 | exact H3]]] |].
  exact (rescore_only_age st 0%nat 1%nat people registry "income" 1000 42 3%nat st'
           ["age"] H0 H1 H2 H3).
Defined.

Lemma anonymise_bands_age_people :
  let st := process [people] in
  let st' := snd (anonymise 0%nat "age" 1000 42 st) in
  (heap st !! 0%nat = Some people
   /\ getitem people "age" = Some (Int64 [25; 41; 70])
   /\ is_numeric_dtype (Int64 [25; 41; 70]) = true
   /\ anonymise 0%nat "age" 1000 42 st = (inr 2%nat, st'))
  /\ exists d' bands,
       heap st' !! 2%nat = Some d'
       /\ getitem d' "age" = Some (Categorical bands)
       /\ Forall (fun b => match b with
                           | Some label => In label labels
                           | None => True
                           end) bands.
Proof.
  intros st st'.
  assert (H0 : heap st !! 0%nat = Some people) by reflexivity.
  assert (H1 : getitem people "age" = Some (Int64 [25; 41; 70])) by reflexivity.
  assert (H2 : is_numeric_dtype (Int64 [25; 41; 70]) = true) by reflexivity.
  assert (H3 : anonymise 0%nat "age" 1000 42 st = (inr 2%nat, st')) by reflexivity.
  split; [repeat split; assumption |].
  exact (anonymise_bands_age st 0%nat people _ "age" 1000 42 2%nat st' H0 H1 H2 H3).
Defined.

Lemma cut_value_monotone_ages :
  ((25 <= 41)%Q
   /\ cut_value bins labels (Some 25%Q) = Some "20-29"
   /\ cut_value bins labels (Some 41%Q) = Some "40-49")
  /\ exists i j,
       nth_error labels i = Some "20-29" /\ nth_error labels j = Some "40-49"
       /\ (i <= j)%nat.
Proof.
  assert (H0 : (25 <= 41)%Q) by discriminate.
  assert (H1 : cut_value bins labels (Some 25%Q) = Some "20-29") by reflexivity.
  assert (H2 : cut_value bins labels (Some 41%Q) = Some "40-49") by reflexivity.
  split; [repeat split; assumption |].
  exact (cut_value_monotone 25 41 "20-29" "40-49" H0 H1 H2).
Defined.

Lemma add_laplace_noise_no_rows_sample :
  let st := process [no_rows_numeric] in
  (heap st !! 0%nat = Some no_rows_numeric
   /\ len no_rows_numeric = 0%nat
   /\ getitem no_rows_numeric "income" = Some (Float64 [])
   /\ is_numeric_dtype (Float64 []) = true
   /\ series_len (Float64 []) = 0%nat
   /\ 0 <= 42 <= 4294967295
   /\ Qcompare 1000 0 <> Lt)
  /\ add_laplace_noise 0%nat "income" 1000 (Some 42) st
     = (inr (fresh (dom (heap st))),
        mkState (<[fresh (dom (heap st)) := setitem no_rows_numeric "income" (Int64 [])]>
                   (heap st))
                (seeded 42)).
Proof.
  intros st.
  assert (H0 : heap st !! 0%nat = Some no_rows_numeric) by reflexivity.
  assert (H1 : len no_rows_numeric = 0%nat) by reflexivity.
  assert (H2 : getitem no_rows_numeric "income" = Some (Float64 [])) by reflexivity.
  assert (H3 : is_numeric_dtype (Float64 []) = true) by reflexivity.
  assert (H4 : series_len (Float64 []) = 0%nat) by reflexivity.
  assert (H5 : 0 <= 42 <= 4294967295) by lia.
  assert (H6 : Qcompare 1000 0 <> Lt) by discriminate.
  split; [split; [exact H0 | split; [exact H1 | split; [exact H2 | split;
            [exact H3 | split; [exact H4 | split; [exact H5 | exact H6]]]]]] |].
  exact (add_laplace_noise_no_rows st 0%nat no_rows_numeric "income" _ 1000 42
           H0 H1 H2 H3 H4 H5 H6).
Defined.

Lemma rescore_not_lower_people :
  let st := process [people; registry] in
  let st' := snd (anonymise 0%nat "income" 1000 42 st) in
  (heap st !! 0%nat = Some people
   /\ heap st !! 1%nat = Some registry
   /\ anonymise 0%nat "income" 1000 42 st = (inr 3%nat, st')
   /\ ~ In "income" (new_quasi ["age"; "gender"])
   /\ fst (calculate_risk 0%nat 1%nat ["age"; "gender"] st) = inr (2%nat, 2345624805922133 # 35184372088832)
   /\ fst (calculate_risk 3%nat 1%nat (new_quasi ["age"; "gender"]) st')
      = inr (3%nat, 100 # 1))
  /\ (2 <= 3)%nat /\ (2345624805922133 # 35184372088832 <= 100 # 1)%Q.
Proof.
  intros st st'.
  assert (H0 : heap st !! 0%nat = Some people) by reflexivity.
  assert (H1 : heap st !! 1%nat = Some registry) by reflexivity.
  assert (H2 : anonymise 0%nat "income" 1000 42 st = (inr 3%nat, st')) by reflexivity.
  assert (H3 : ~ In "income" (new_quasi ["age"; "gender"]))
    by (simpl; intuition discriminate).
  assert (H4 : fst (calculate_risk 0%nat 1%nat ["age"; "gender"] st)
               = inr (2%nat, 2345624805922133 # 35184372088832)) by reflexivity.
  assert (H5 : fst (calculate_risk 3%nat 1%nat (new_quasi ["age"; "gender"]) st')
               = inr (3%nat, 100 # 1)) by reflexivity.
  split; [split; [exact H0 | split; [exact H1 | split; [exact H2 | split;
            [exact H3 | split; [exact H4 | exact H5]]]]] |].
  exact (rescore_not_lower st 0%nat 1%nat people registry "income" 1000 42 3%nat st'
           ["age"; "gender"] 2%nat (2345624805922133 # 35184372088832) 3%nat (100 # 1) H0 H1 H2 H3 H4 H5).
Defined.
